(** * Base58 codec of [Sources/CCrypto/base58.c]

    A shallow embedding of the two conversion routines [b58tobin] and
    [b58enc], of their convenience wrappers [base58_decode] and
    [base58_encode], and of the two constant tables they share, followed by
    the properties of the codec.

    Conventions of the embedding.
    - A byte ([uint8_t], [unsigned char], [char]) is a [Byte.byte]; [u8] reads
      it as a number and [to_u8] is the conversion of a number to [uint8_t].
    - [size_t] and [b58_maxint_t] are 64 bits wide, [unsigned] and
      [b58_almostmaxint_t] 32 bits wide; wrap-around is written [wrap64] and
      [wrap32].
    - A [const char *] argument is the list of bytes found at that address;
      the string it denotes stops at the first NUL byte ([strlen]), and the
      end of the list counts as a terminator.
    - An output buffer is returned as the list of bytes written to it. *)

From Stdlib Require Import Strings.String.
From Stdlib Require Import ZArith List Lia Bool Strings.Byte.
Import ListNotations.
Open Scope Z_scope.

(** ** Machine integers *)

Definition wrap8 (z : Z) : Z := z mod 2 ^ 8.
Definition wrap32 (z : Z) : Z := z mod 2 ^ 32.
Definition wrap64 (z : Z) : Z := z mod 2 ^ 64.

Definition u8 (b : byte) : Z := Z.of_N (Byte.to_N b).

Definition to_u8 (z : Z) : byte :=
  match Byte.of_N (Z.to_N (wrap8 z)) with
  | Some b => b
  | None => x00
  end.

(** Array store [a[i] = v]; every store of the source is within bounds. *)
Fixpoint upd {A : Type} (i : nat) (v : A) (l : list A) : list A :=
  match l, i with
  | [], _ => []
  | _ :: t, O => v :: t
  | x :: t, S i' => x :: upd i' v t
  end.

(** ** The constant tables *)

(** [b58digits_ordered], without the terminator of the C string literal. *)
Definition b58digits_ordered : list byte :=
  String.list_byte_of_string
    "123456789ABCDEFGHJKLMNPQRSTUVWXYZabcdefghijkmnopqrstuvwxyz"%string.

(** [b58digits_map], an array of 128 [int8_t]. *)
Definition b58digits_map : list Z :=
  [ -1; -1; -1; -1; -1; -1; -1; -1; -1; -1; -1; -1; -1; -1; -1; -1; -1; -1; -1;
    -1; -1; -1; -1; -1; -1; -1; -1; -1; -1; -1; -1; -1; -1; -1; -1; -1; -1; -1;
    -1; -1; -1; -1; -1; -1; -1; -1; -1; -1; -1; 0;  1;  2;  3;  4;  5;  6;  7;
    8;  -1; -1; -1; -1; -1; -1; -1; 9;  10; 11; 12; 13; 14; 15; 16; -1; 17; 18;
    19; 20; 21; -1; 22; 23; 24; 25; 26; 27; 28; 29; 30; 31; 32; -1; -1; -1; -1;
    -1; -1; 33; 34; 35; 36; 37; 38; 39; 40; 41; 42; 43; -1; 44; 45; 46; 47; 48;
    49; 50; 51; 52; 53; 54; 55; 56; 57; -1; -1; -1; -1; -1 ].

(** [b58digits_ordered[d]], the character the encoder writes for a digit. *)
Definition digit_char (d : Z) : byte := nth (Z.to_nat d) b58digits_ordered x00.

(** [b58digits_map[ch]], the digit value the decoder reads for a character;
    the decoder only evaluates it for [ch < 128]. *)
Definition digit_of (ch : byte) : Z := nth (Z.to_nat (u8 ch)) b58digits_map (-1).

(** The table entry of a byte value, when the table has one. *)
Definition map_lookup (v : Z) : option Z := nth_error b58digits_map (Z.to_nat v).

(** Membership of a byte in the alphabet. *)
Definition in_alphabet (c : byte) : bool :=
  existsb (Byte.eqb c) b58digits_ordered.

Definition b58_almostmaxint_bits : Z := 4 * 8.

(** [(((b58_maxint_t)1) << b58_almostmaxint_bits) - 1], stored in 32 bits. *)
Definition b58_almostmaxint_mask : Z :=
  wrap32 (wrap64 (Z.shiftl 1 b58_almostmaxint_bits) - 1).

(** ** Decoder *)

(** The ways [b58tobin] returns [false].  Only the last one is reached after
    the output buffer has been written. *)
Inductive tobin_failure : Type :=
| ZeroCapacity                           (* binsz == 0 *)
| InvalidDigit                           (* high bit set, or not a digit *)
| OutputTooBig                           (* carry left, or last int32 filled too far *)
| ResultTooLarge (bin : list byte).      (* zerocount > i *)

(** [inr (bin, binszp)]: the function returned [true], [bin] holds the
    [binsz] bytes written and [binszp] the value left in [*binszp]. *)
Definition tobin_result : Type := (tobin_failure + list byte * Z)%type.

Fixpoint strlen (s : list byte) : nat :=
  match s with
  | [] => O
  | c :: s' => if Byte.eqb c x00 then O else S (strlen s')
  end.

(** The characters of the C string stored in [mem]. *)
Definition c_string (mem : list byte) : list byte := firstn (strlen mem) mem.

(** [for (i = 0; i < b58sz && b58u[i] == '1'; ++i)]: the value of [i] at
    exit, on the characters of the string. *)
Fixpoint count_ones (s : list byte) : nat :=
  match s with
  | [] => O
  | c :: s' => if Byte.eqb c "1"%byte then S (count_ones s') else O
  end.

(** The loop [for (j = outisz; j--;)] over the chunks, last chunk first:
    the chunks after the pass and the carry out of chunk 0. *)
Fixpoint mul58_add (outi : list Z) (c : Z) : list Z * Z :=
  match outi with
  | [] => ([], c)
  | x :: rest =>
      let (rest', c') := mul58_add rest c in
      let t := wrap64 (x * 58 + c') in
      (Z.land t b58_almostmaxint_mask :: rest',
       wrap32 (Z.shiftr t b58_almostmaxint_bits))
  end.

(** The loop [for (; i < b58sz; ++i)] over the remaining characters. *)
Fixpoint b58_accumulate (zeromask : Z) (s : list byte) (outi : list Z)
  : tobin_failure + list Z :=
  match s with
  | [] => inr outi
  | ch :: s' =>
      if negb (Z.land (u8 ch) 128 =? 0) then inl InvalidDigit
      else
        let d := digit_of ch in
        if d =? -1 then inl InvalidDigit
        else
          let (outi', c) := mul58_add outi (wrap32 d) in
          if negb (c =? 0) then inl OutputTooBig
          else if negb (Z.land (nth 0 outi' 0) zeromask =? 0)
               then inl OutputTooBig
               else b58_accumulate zeromask s' outi'
  end.

(** [for (i = n; i > 0; --i) *(binu++) = (x >> (8 * (i - 1))) & 0xff]. *)
Fixpoint chunk_bytes (i : nat) (x : Z) : list byte :=
  match i with
  | O => []
  | S i' => to_u8 (Z.land (Z.shiftr x (8 * Z.of_nat i')) 255) :: chunk_bytes i' x
  end.

Definition serialize (bytesleft : Z) (outi : list Z) : list byte :=
  if negb (bytesleft =? 0)
  then chunk_bytes (Z.to_nat bytesleft) (nth 0 outi 0)
         ++ flat_map (chunk_bytes 4) (tl outi)
  else flat_map (chunk_bytes 4) outi.

(** The loop that counts the canonical byte count, from index [i] on, with
    [binszp] the current value of [*binszp]: [None] when it returns
    [false], otherwise the value of [*binszp] at its exit. *)
Fixpoint count_canonical (zerocount : Z) (bin : list byte) (i : Z) (binszp : Z)
  : option Z :=
  match bin with
  | [] => Some binszp
  | b :: rest =>
      if negb (u8 b =? 0)
      then if zerocount >? i then None else Some binszp
      else count_canonical zerocount rest (i + 1) (wrap64 (binszp - 1))
  end.

(** The number of chunks, the leftover byte count and the mask of the bits
    of chunk 0 that must stay clear. *)
Definition outisz (binsz : Z) : Z := wrap64 (binsz + 4 - 1) / 4.

Definition bytesleft (binsz : Z) : Z := wrap8 (binsz mod 4).

Definition zeromask (binsz : Z) : Z :=
  if negb (bytesleft binsz =? 0)
  then wrap32 (Z.shiftl b58_almostmaxint_mask (bytesleft binsz * 8))
  else 0.

Definition b58tobin (binsz : Z) (b58 : list byte) : tobin_result :=
  if binsz =? 0 then inl ZeroCapacity
  else
    let outi := repeat 0 (Z.to_nat (outisz binsz)) in
    let str := c_string b58 in
    let i := count_ones str in
    let zerocount := wrap32 (Z.of_nat i) in
    match b58_accumulate (zeromask binsz) (skipn i str) outi with
    | inl e => inl e
    | inr outi' =>
        let bin := serialize (bytesleft binsz) outi' in
        match count_canonical zerocount (firstn (Z.to_nat binsz) bin) 0 binsz with
        | None => inl (ResultTooLarge bin)
        | Some sz => inr (bin, wrap64 (sz + zerocount))
        end
    end.

(** ** Encoder *)

(** [while (zcount < binsz && !bin[zcount]) ++zcount]. *)
Fixpoint count_zero_bytes (bin : list byte) : nat :=
  match bin with
  | [] => O
  | b :: rest => if u8 b =? 0 then S (count_zero_bytes rest) else O
  end.

(** The inner loop
    [for (carry = bin[i], j = size - 1; (j > high) || carry; --j)]
    entered at index [j] with the given [carry]: the buffer and the value of
    [j] at its exit.  [carry] is an [int]; it stays below [256 * 58], and
    [%] and [/] on it are [Z.rem] and [Z.quot]. *)
Fixpoint enc_inner (high : nat) (carry : Z) (j : nat) (buf : list Z)
  : list Z * nat :=
  if (high <? j)%nat || negb (carry =? 0) then
    let carry1 := carry + 256 * nth j buf 0 in
    let buf' := upd j (wrap8 (Z.rem carry1 58)) buf in
    let carry2 := Z.quot carry1 58 in
    match j with
    | O => (buf', O)
    | S j' => enc_inner high carry2 j' buf'
    end
  else (buf, j).

(** The outer loop [for (i = zcount, high = size - 1; i < binsz; ++i, high = j)]
    over the bytes from index [zcount] on; [last] is [size - 1]. *)
Fixpoint enc_outer (bytes : list byte) (last : nat) (high : nat) (buf : list Z)
  : list Z :=
  match bytes with
  | [] => buf
  | b :: rest =>
      let (buf', j) := enc_inner high (u8 b) last buf in
      enc_outer rest last j buf'
  end.

(** [for (j = 0; j < size && !buf[j]; ++j);]. *)
Fixpoint count_zero_digits (buf : list Z) : nat :=
  match buf with
  | [] => O
  | d :: rest => if d =? 0 then S (count_zero_digits rest) else O
  end.

(** The size of the scratch buffer. *)
Definition enc_size (binsz zcount : Z) : Z :=
  wrap64 (wrap64 (binsz - zcount) * 138) / 100 + 1.

(** The scratch buffer after the conversion loop. *)
Definition enc_digits (data : list byte) : list Z :=
  let zcount := count_zero_bytes data in
  let size := Z.to_nat (enc_size (Z.of_nat (length data)) (Z.of_nat zcount)) in
  enc_outer (skipn zcount data) (size - 1) (size - 1) (repeat 0 size).

(** [inl n]: [b58enc] returned [false] and left [n] in [*b58sz], nothing was
    written.  [inr (b58, n)]: it returned [true], [b58] are the bytes written
    (terminator included) and [n] is left in [*b58sz]. *)
Definition enc_result : Type := (Z + list byte * Z)%type.

Definition b58enc (b58sz : Z) (data : list byte) : enc_result :=
  let binsz := Z.of_nat (length data) in
  let zcount := count_zero_bytes data in
  let size := enc_size binsz (Z.of_nat zcount) in
  let buf := enc_digits data in
  let j := count_zero_digits buf in
  let len := wrap64 (Z.of_nat zcount + size - Z.of_nat j) in
  if b58sz <=? len then inl (wrap64 (len + 1))
  else
    let digits := skipn j buf in
    inr (repeat "1"%byte zcount
           ++ map digit_char digits
           ++ [x00],
         wrap64 (Z.of_nat (zcount + length digits) + 1)).

(** ** Wrappers *)

Definition base58_encode (data : list byte) (strsize : Z) : Z :=
  match b58enc strsize data with
  | inl _ => 0
  | inr (_, res) => res
  end.

(** What [base58_decode] leaves in [data]. *)
Inductive copy_outcome : Type :=
| Untouched                       (* returned before the memcpy *)
| Copied (bytes : list byte)      (* the [res] bytes from [d + datalen - res] *)
| OutOfBounds.                    (* [res > datalen]: the source starts before [d] *)

(** The [res] bytes at [nd = d + datalen - res]: the decoded bytes. *)
Definition decoded (datalen : Z) (d : list byte) (res : Z) : list byte :=
  skipn (Z.to_nat (datalen - res)) d.

Definition base58_decode (str : list byte) (datalen : Z) : Z * copy_outcome :=
  match b58tobin datalen str with
  | inl _ => (0, Untouched)
  | inr (d, res) =>
      (res, if res <=? datalen then Copied (decoded datalen d res) else OutOfBounds)
  end.

(** The string [b58enc] produces, without its terminator. *)
Definition enc_string (data : list byte) : list byte :=
  let buf := enc_digits data in
  repeat "1"%byte (count_zero_bytes data)
    ++ map digit_char (skipn (count_zero_digits buf) buf).

(** The boolean [b58tobin] returns. *)
Definition tobin_returns (r : tobin_result) : bool :=
  match r with
  | inl _ => false
  | inr _ => true
  end.


(** ** Positional values

    The value of a list of digits in base [B], most significant digit first,
    started from the accumulator [a]. *)

Definition horner (B : Z) (a : Z) (l : list Z) : Z :=
  fold_left (fun acc x => acc * B + x) l a.

Definition in_base (B : Z) (l : list Z) : Prop :=
  Forall (fun x => 0 <= x < B) l.

(** The number a list of bytes denotes, big-endian. *)
Definition bytes_value (l : list byte) : Z := horner 256 0 (map u8 l).

(** The magnitude of a Base58 string: its characters read as base-58 digits. *)
Definition b58_value (s : list byte) : Z := horner 58 0 (map digit_of s).

(** ** Machine integers: basic facts *)

Lemma u8_range (b : byte) : 0 <= u8 b < 256.
Proof.
  unfold u8. pose proof (Byte.to_N_bounded b). lia.
Qed.

Lemma to_u8_u8 (b : byte) : to_u8 (u8 b) = b.
Proof.
  unfold to_u8, wrap8. pose proof (u8_range b) as H.
  rewrite Z.mod_small by (change (2 ^ 8) with 256; lia).
  unfold u8. rewrite N2Z.id, Byte.of_to_N. reflexivity.
Qed.

Lemma u8_to_u8 (z : Z) : u8 (to_u8 z) = z mod 256.
Proof.
  unfold to_u8, wrap8. change (2 ^ 8) with 256.
  pose proof (Z.mod_pos_bound z 256 ltac:(lia)) as H.
  destruct (Byte.of_N (Z.to_N (z mod 256))) as [b|] eqn:E.
  - apply Byte.to_of_N in E. unfold u8. rewrite E. lia.
  - apply Byte.of_N_None_iff in E. lia.
Qed.

Lemma u8_inj (a b : byte) : u8 a = u8 b -> a = b.
Proof.
  intros H. rewrite <- (to_u8_u8 a), <- (to_u8_u8 b), H. reflexivity.
Qed.

Lemma u8_zero_iff (b : byte) : u8 b = 0 <-> b = x00.
Proof.
  split; intros H.
  - apply u8_inj. rewrite H. reflexivity.
  - subst. reflexivity.
Qed.

Lemma byte_eqb_spec (a b : byte) : Byte.eqb a b = true <-> a = b.
Proof.
  split; [apply Byte.byte_dec_bl | apply Byte.byte_dec_lb].
Qed.

Lemma byte_eqb_neq (a b : byte) : Byte.eqb a b = false <-> a <> b.
Proof.
  split.
  - apply Byte.eqb_false.
  - intros H. destruct (Byte.eqb a b) eqn:E; [|reflexivity].
    apply byte_eqb_spec in E. contradiction.
Qed.

Lemma wrap64_small (z : Z) : 0 <= z < 2 ^ 64 -> wrap64 z = z.
Proof. intros H. unfold wrap64. apply Z.mod_small. exact H. Qed.

Lemma wrap32_small (z : Z) : 0 <= z < 2 ^ 32 -> wrap32 z = z.
Proof. intros H. unfold wrap32. apply Z.mod_small. exact H. Qed.

Lemma wrap8_small (z : Z) : 0 <= z < 2 ^ 8 -> wrap8 z = z.
Proof. intros H. unfold wrap8. apply Z.mod_small. exact H. Qed.

Lemma almostmaxint_mask_eq : b58_almostmaxint_mask = Z.ones 32.
Proof. reflexivity. Qed.

(** ** Positional values: basic facts *)

Section Positional.
Variable B : Z.
Hypothesis HB : 1 < B.

Lemma horner_nil a : horner B a [] = a.
Proof. reflexivity. Qed.

Lemma horner_cons a x l : horner B a (x :: l) = horner B (a * B + x) l.
Proof. reflexivity. Qed.

Lemma horner_app a l1 l2 :
  horner B a (l1 ++ l2) = horner B (horner B a l1) l2.
Proof. unfold horner. apply fold_left_app. Qed.

Lemma horner_snoc a l x : horner B a (l ++ [x]) = horner B a l * B + x.
Proof. rewrite horner_app. reflexivity. Qed.

Lemma horner_acc a l :
  horner B a l = a * B ^ Z.of_nat (length l) + horner B 0 l.
Proof.
  revert a. induction l as [|x l IH]; intros a.
  - cbn. lia.
  - rewrite !horner_cons, IH, (IH (0 * B + x)).
    cbn [length]. rewrite Nat2Z.inj_succ, Z.pow_succ_r by lia. ring.
Qed.

Lemma horner_cons0 x l :
  horner B 0 (x :: l) = x * B ^ Z.of_nat (length l) + horner B 0 l.
Proof. rewrite horner_cons, horner_acc. ring. Qed.

Lemma horner_app0 l1 l2 :
  horner B 0 (l1 ++ l2)
  = horner B 0 l1 * B ^ Z.of_nat (length l2) + horner B 0 l2.
Proof. rewrite horner_app, horner_acc. reflexivity. Qed.

Lemma pow_base_pos n : 0 < B ^ Z.of_nat n.
Proof. apply Z.pow_pos_nonneg; lia. Qed.

Lemma horner_range l :
  in_base B l -> 0 <= horner B 0 l < B ^ Z.of_nat (length l).
Proof.
  induction 1 as [|x l Hx Hl IH].
  - cbn. lia.
  - rewrite horner_cons0. cbn [length].
    rewrite Nat2Z.inj_succ, Z.pow_succ_r by lia.
    pose proof (pow_base_pos (length l)). nia.
Qed.

Lemma horner_ge_acc a l : 0 <= a -> in_base B l -> a <= horner B a l.
Proof.
  intros Ha Hl. rewrite horner_acc.
  pose proof (horner_range l Hl). pose proof (pow_base_pos (length l)). nia.
Qed.

Lemma horner_mono a b l : a <= b -> horner B a l <= horner B b l.
Proof.
  intros Hab. rewrite (horner_acc a), (horner_acc b).
  pose proof (pow_base_pos (length l)). nia.
Qed.

Lemma in_base_repeat0 n : in_base B (repeat 0 n).
Proof. apply Forall_forall. intros x Hx. apply repeat_spec in Hx. lia. Qed.

Lemma horner_repeat0 n : horner B 0 (repeat 0 n) = 0.
Proof.
  induction n as [|n IH]; [reflexivity|].
  cbn [repeat]. rewrite horner_cons0, IH. lia.
Qed.

Lemma horner_zeros n l : horner B 0 (repeat 0 n ++ l) = horner B 0 l.
Proof. rewrite horner_app0, horner_repeat0. lia. Qed.

Lemma horner_inj l1 l2 :
  in_base B l1 -> in_base B l2 -> length l1 = length l2 ->
  horner B 0 l1 = horner B 0 l2 -> l1 = l2.
Proof.
  intros H1. revert l2. induction H1 as [|x l1 Hx H1 IH]; intros l2 H2 Hlen Heq.
  - destruct l2; [reflexivity|discriminate].
  - destruct l2 as [|y l2]; [discriminate|].
    inversion H2 as [|? ? Hy H2']; subst.
    cbn [length] in Hlen. injection Hlen as Hlen.
    rewrite !horner_cons0, Hlen in Heq.
    pose proof (horner_range l1 H1) as R1.
    pose proof (horner_range l2 H2') as R2. rewrite Hlen in R1.
    assert (x = y) by nia. subst y.
    f_equal. apply IH; auto. lia.
Qed.

Lemma horner_zero_all l : in_base B l -> horner B 0 l = 0 -> Forall (eq 0) l.
Proof.
  induction 1 as [|x l Hx Hl IH]; intros H0; [constructor|].
  rewrite horner_cons0 in H0.
  pose proof (horner_range l Hl). pose proof (pow_base_pos (length l)).
  constructor; [nia|]. apply IH. nia.
Qed.
End Positional.

(** ** The tables: basic facts *)

Lemma byte_forallb (P : byte -> bool) :
  forallb (fun n => P (to_u8 (Z.of_nat n))) (seq 0 256) = true ->
  forall b, P b = true.
Proof.
  intros H b. rewrite forallb_forall in H.
  specialize (H (Z.to_nat (u8 b))). pose proof (u8_range b).
  rewrite Z2Nat.id, to_u8_u8 in H by lia.
  apply H, in_seq. lia.
Qed.

Lemma alphabet_char_facts (ch : byte) :
  in_alphabet ch = true ->
  Z.land (u8 ch) 128 = 0 /\ 0 <= digit_of ch < 58
  /\ digit_char (digit_of ch) = ch /\ ch <> x00
  /\ (digit_of ch = 0 -> ch = "1"%byte).
Proof.
  pose (P := fun c : byte =>
    implb (in_alphabet c)
      ((Z.land (u8 c) 128 =? 0) && (0 <=? digit_of c) && (digit_of c <? 58)
       && Byte.eqb (digit_char (digit_of c)) c && negb (Byte.eqb c x00)
       && implb (digit_of c =? 0) (Byte.eqb c "1"%byte))).
  assert (HP : forall c, P c = true)
    by (apply byte_forallb; vm_compute; reflexivity).
  intros Hin. specialize (HP ch). unfold P in HP. rewrite Hin in HP.
  cbn [implb] in HP.
  rewrite !andb_true_iff in HP.
  destruct HP as [[[[[A1 A2] A3] A4] A5] A6].
  repeat split.
  - apply Z.eqb_eq; assumption.
  - apply Z.leb_le; assumption.
  - apply Z.ltb_lt; assumption.
  - apply byte_eqb_spec; assumption.
  - apply byte_eqb_neq. destruct (Byte.eqb ch x00); [discriminate|reflexivity].
  - intros E. apply byte_eqb_spec. rewrite E in A6. exact A6.
Qed.

Lemma non_alphabet_rejected (ch : byte) :
  in_alphabet ch = false ->
  Z.land (u8 ch) 128 <> 0 \/ digit_of ch = -1.
Proof.
  pose (P := fun c : byte =>
    in_alphabet c || negb (Z.land (u8 c) 128 =? 0) || (digit_of c =? -1)).
  assert (HP : forall c, P c = true)
    by (apply byte_forallb; vm_compute; reflexivity).
  intros Hin. specialize (HP ch). unfold P in HP. rewrite Hin in HP.
  cbn [orb] in HP. apply orb_prop in HP. destruct HP as [HP|HP].
  - left. apply Z.eqb_neq. destruct (Z.land (u8 ch) 128 =? 0); [discriminate|reflexivity].
  - right. apply Z.eqb_eq. exact HP.
Qed.

Lemma digit_char_facts (d : Z) :
  0 <= d < 58 ->
  in_alphabet (digit_char d) = true /\ digit_of (digit_char d) = d.
Proof.
  intros Hd.
  assert (Hall : forallb (fun i => in_alphabet (digit_char (Z.of_nat i))
                                   && (digit_of (digit_char (Z.of_nat i)) =? Z.of_nat i))
                         (seq 0 58) = true) by (vm_compute; reflexivity).
  rewrite forallb_forall in Hall.
  specialize (Hall (Z.to_nat d)).
  rewrite Z2Nat.id in Hall by lia.
  rewrite in_seq in Hall.
  destruct (andb_prop _ _ (Hall ltac:(lia))) as [H1 H2].
  split; [exact H1 | apply Z.eqb_eq; exact H2].
Qed.

(** ** Lists: stores and zero prefixes *)

Lemma length_upd {A : Type} (i : nat) (v : A) (l : list A) :
  length (upd i v l) = length l.
Proof.
  revert i. induction l as [|x l IH]; intros [|i]; cbn; auto.
Qed.

Lemma upd_middle {A : Type} (pre : list A) (x v : A) (post : list A) n :
  length pre = n -> upd n v (pre ++ x :: post) = pre ++ v :: post.
Proof.
  intros <-.
  induction pre as [|y pre IH]; cbn; [reflexivity|]. rewrite IH. reflexivity.
Qed.

Lemma nth_middle_len {A : Type} (pre : list A) (x d : A) (post : list A) n :
  length pre = n -> nth n (pre ++ x :: post) d = x.
Proof. intros <-. apply nth_middle. Qed.

Lemma split_last {A : Type} (l : list A) (n : nat) :
  length l = S n -> exists pre x, l = pre ++ [x] /\ length pre = n.
Proof.
  intros Hlen. destruct (exists_last (l := l)) as [pre [x Hx]].
  - intros ->. discriminate.
  - exists pre, x. split; [exact Hx|].
    subst l. rewrite length_app in Hlen. cbn in Hlen. lia.
Qed.

Lemma Forall_firstn_prefix {A : Type} (P : A -> Prop) n (l l' : list A) :
  Forall P (firstn n (l ++ l')) -> Forall P (firstn n l).
Proof.
  rewrite firstn_app. intros H. apply Forall_app in H. tauto.
Qed.

Lemma Forall_firstn {A : Type} (P : A -> Prop) n (l : list A) :
  Forall P l -> Forall P (firstn n l).
Proof.
  intros H. rewrite <- (firstn_skipn n l) in H. apply Forall_app in H. tauto.
Qed.

Lemma Forall_repeat {A : Type} (P : A -> Prop) (x : A) n :
  P x -> Forall P (repeat x n).
Proof.
  intros Hx. apply Forall_forall. intros y Hy.
  apply repeat_spec in Hy. subst y. exact Hx.
Qed.

Lemma horner_all_zero B l : Forall (eq 0) l -> horner B 0 l = 0.
Proof.
  induction 1 as [|x l Hx Hl IH]; [reflexivity|].
  subst x. rewrite horner_cons. exact IH.
Qed.

(** ** Encoder: the conversion loops *)

Lemma enc_inner_eq high carry j buf :
  enc_inner high carry j buf =
  if (high <? j)%nat || negb (carry =? 0) then
    let carry1 := carry + 256 * nth j buf 0 in
    let buf' := upd j (wrap8 (Z.rem carry1 58)) buf in
    let carry2 := Z.quot carry1 58 in
    match j with
    | O => (buf', O)
    | S j' => enc_inner high carry2 j' buf'
    end
  else (buf, j).
Proof. destruct j; reflexivity. Qed.

Lemma digit_store (c : Z) :
  0 <= c -> wrap8 (Z.rem c 58) = c mod 58 /\ Z.quot c 58 = c / 58.
Proof.
  intros Hc. rewrite Z.rem_mod_nonneg, Z.quot_div_nonneg by lia.
  split; [|reflexivity].
  apply wrap8_small. pose proof (Z.mod_pos_bound c 58 ltac:(lia)).
  change (2 ^ 8) with 256. lia.
Qed.

(** One run of the inner loop on the part [pre ++ [x]] of the buffer that
    ends at index [j]: the digits from the exit index on are those of
    [carry + 256 * old], up to a carry [lost] out of index 0. *)
Lemma enc_inner_spec :
  forall j pre x post high carry,
    length pre = j -> 0 <= carry ->
    in_base 58 (pre ++ [x]) ->
    Forall (eq 0) (firstn (S high) (pre ++ [x])) ->
    exists pre' j' lost,
      enc_inner high carry j (pre ++ x :: post) = (pre' ++ post, j')
      /\ length pre' = S j
      /\ in_base 58 pre'
      /\ 0 <= lost
      /\ horner 58 0 pre' + lost * 58 ^ Z.of_nat (S j)
         = carry + 256 * horner 58 0 (pre ++ [x])
      /\ (j' = O \/ ((j' <= j)%nat /\ Forall (eq 0) (firstn (S j') pre'))).
Proof.
  induction j as [|j IH]; intros pre x post high carry Hlen Hc Hbase Hzero;
    rewrite enc_inner_eq;
    destruct ((high <? _)%nat || negb (carry =? 0)) eqn:Hcond.
  - (* index 0 is rewritten, then the loop breaks *)
    destruct pre; [|discriminate]. cbn [app] in *.
    apply Forall_inv in Hbase.
    destruct (digit_store (carry + 256 * x)) as [Hm Hq]; [lia|].
    cbv zeta. cbn [nth upd]. rewrite Hm.
    exists [(carry + 256 * x) mod 58], O, ((carry + 256 * x) / 58).
    pose proof (Z.mod_pos_bound (carry + 256 * x) 58 ltac:(lia)).
    pose proof (Z.div_pos (carry + 256 * x) 58 ltac:(lia) ltac:(lia)).
    pose proof (Z.div_mod (carry + 256 * x) 58 ltac:(lia)).
    repeat split; auto.
    + constructor; [cbv beta; lia|constructor].
    + unfold horner. cbn [fold_left]. change (58 ^ Z.of_nat 1) with 58. lia.
  - (* nothing to do at index 0 *)
    destruct pre; [|discriminate]. cbn [app] in *.
    apply orb_false_elim in Hcond. destruct Hcond as [_ Hc0].
    apply negb_false_iff, Z.eqb_eq in Hc0. subst carry.
    apply Forall_inv in Hzero. subst x.
    exists [0], O, 0. repeat split; auto.
  - (* index [S j] is rewritten, the loop goes on at index [j] *)
    destruct (split_last pre j Hlen) as [pre0 [y [-> Hlen0]]].
    assert (Hx : 0 <= x < 58).
    { apply Forall_app in Hbase. destruct Hbase as [_ Hx].
      apply Forall_inv in Hx. exact Hx. }
    assert (Hbase0 : in_base 58 (pre0 ++ [y])).
    { apply Forall_app in Hbase. tauto. }
    destruct (digit_store (carry + 256 * x)) as [Hm Hq]; [lia|].
    cbv zeta. rewrite (nth_middle_len _ _ _ _ _ Hlen).
    rewrite (upd_middle _ _ _ _ _ Hlen), Hm, Hq.
    rewrite <- app_assoc. cbn [app].
    destruct (IH pre0 y ((carry + 256 * x) mod 58 :: post) high
                 ((carry + 256 * x) / 58) Hlen0)
      as [pre0' [j' [lost (Heq & Hl' & Hb' & Hlost & Hval & Hz')]]].
    + apply Z.div_pos; lia.
    + exact Hbase0.
    + apply Forall_firstn_prefix with (l' := [x]). exact Hzero.
    + pose proof (Z.mod_pos_bound (carry + 256 * x) 58 ltac:(lia)) as Hmod.
      pose proof (Z.div_mod (carry + 256 * x) 58 ltac:(lia)) as Hdm.
      exists (pre0' ++ [(carry + 256 * x) mod 58]), j', lost.
      repeat split; auto.
      * rewrite Heq, <- app_assoc. reflexivity.
      * rewrite length_app, Hl'. cbn. lia.
      * apply Forall_app. split; [exact Hb'|]. constructor; [cbv beta; lia|constructor].
      * rewrite !horner_snoc.
        replace (58 ^ Z.of_nat (S (S j))) with (58 * 58 ^ Z.of_nat (S j))
          by (rewrite (Nat2Z.inj_succ (S j)), Z.pow_succ_r by lia; reflexivity).
        rewrite horner_snoc in Hval. nia.
      * destruct Hz' as [->|[Hle Hz']]; [left; reflexivity|right].
        split; [lia|].
        rewrite firstn_app, Hl'. replace (S j' - S j)%nat with O by lia.
        cbn [firstn]. rewrite app_nil_r. exact Hz'.
  - (* the loop stops at index [S j], which is not above [high] *)
    apply orb_false_elim in Hcond. destruct Hcond as [Hhj Hc0].
    apply negb_false_iff, Z.eqb_eq in Hc0. subst carry.
    apply Nat.ltb_ge in Hhj.
    rewrite firstn_all2 in Hzero by (rewrite length_app; cbn; lia).
    exists (pre ++ [x]), (S j), 0.
    repeat split; auto.
    + rewrite <- app_assoc. reflexivity.
    + rewrite length_app. cbn. lia.
    + rewrite (horner_all_zero _ _ Hzero). lia.
    + right. split; [lia|].
      rewrite firstn_all2 by (rewrite length_app; cbn; lia). exact Hzero.
Qed.

Lemma horner_head_le B x l :
  1 < B -> in_base B (x :: l) ->
  x * B ^ Z.of_nat (length l) <= horner B 0 (x :: l).
Proof.
  intros HB H. inversion H as [|? ? Hx Hl]; subst.
  rewrite horner_cons0 by exact HB.
  pose proof (horner_range B HB l Hl). lia.
Qed.

Lemma in_base_map_u8 (l : list byte) : in_base 256 (map u8 l).
Proof.
  apply Forall_forall. intros x Hx. apply in_map_iff in Hx.
  destruct Hx as [b [<- _]]. apply u8_range.
Qed.

(** The outer loop turns the scratch buffer into the base-58 digits of
    [256 ^ length rest * old + rest], as long as that number fits in the
    buffer. *)
Lemma enc_outer_spec (last : nat) :
  forall rest buf high,
    length buf = S last ->
    in_base 58 buf ->
    (rest <> [] -> Forall (eq 0) (firstn (S high) buf)) ->
    horner 256 (horner 58 0 buf) (map u8 rest) < 58 ^ Z.of_nat (S last) ->
    length (enc_outer rest last high buf) = S last
    /\ in_base 58 (enc_outer rest last high buf)
    /\ horner 58 0 (enc_outer rest last high buf)
       = horner 256 (horner 58 0 buf) (map u8 rest).
Proof.
  induction rest as [|b rest IH]; intros buf high Hlen Hbase Hzero Hfit.
  - cbn. auto.
  - cbn [enc_outer map].
    destruct (split_last buf last Hlen) as [pre [x [-> Hpre]]].
    destruct (enc_inner_spec last pre x [] high (u8 b) Hpre)
      as [buf' [j' [lost (Heq & Hl' & Hb' & Hlost & Hval & Hz')]]].
    { apply u8_range. }
    { exact Hbase. }
    { apply Hzero. discriminate. }
    rewrite Heq, app_nil_r.
    cbn [map] in Hfit. rewrite horner_cons in Hfit.
    pose proof (horner_range 58 ltac:(lia) _ Hbase) as Rold.
    pose proof (horner_range 58 ltac:(lia) _ Hb') as Rnew.
    pose proof (u8_range b) as Rb.
    pose proof (horner_ge_acc 256 ltac:(lia)
                  (horner 58 0 (pre ++ [x]) * 256 + u8 b) (map u8 rest)
                  ltac:(lia) (in_base_map_u8 rest)) as Hge.
    assert (Hpow : 0 < 58 ^ Z.of_nat (S last)) by (apply Z.pow_pos_nonneg; lia).
    assert (lost = 0) by nia. subst lost.
    assert (Hnew : horner 58 0 buf' = horner 58 0 (pre ++ [x]) * 256 + u8 b) by lia.
    rewrite horner_cons. rewrite <- Hnew in *.
    apply IH; auto.
    intros Hrest. destruct Hz' as [->|[_ Hz']]; [|exact Hz'].
    (* the loop broke at index 0: that digit is 0, for more bytes follow *)
    destruct buf' as [|h t]; [discriminate|].
    cbn [firstn]. constructor; [|constructor].
    pose proof (horner_head_le 58 h t ltac:(lia) Hb') as Hh.
    cbn [length] in Hl'. injection Hl' as Hl'. rewrite Hl' in Hh.
    destruct rest as [|b2 rest]; [contradiction|].
    cbn [map] in Hfit. rewrite horner_cons in Hfit.
    pose proof (u8_range b2) as Rb2.
    pose proof (horner_ge_acc 256 ltac:(lia)
                  (horner 58 0 (h :: t) * 256 + u8 b2) (map u8 rest)
                  ltac:(lia) (in_base_map_u8 rest)) as Hge2.
    rewrite Nat2Z.inj_succ, Z.pow_succ_r in Hfit by lia.
    assert (Hp : 0 < 58 ^ Z.of_nat last) by (apply Z.pow_pos_nonneg; lia).
    inversion Hb' as [|? ? Hh0 _]; subst. nia.
Qed.

(** The scratch buffer is large enough: [138/100] exceeds [log 256 / log 58]. *)
Lemma pow256_le_pow58 (n : Z) :
  0 <= n -> 256 ^ n <= 58 ^ (n * 138 / 100 + 1).
Proof.
  intros Hn.
  pose proof (Z.div_pos (n * 138) 100 ltac:(lia) ltac:(lia)) as Hq.
  assert (Ha : 0 <= 256 ^ n) by (apply Z.pow_nonneg; lia).
  assert (Hb : 0 <= 58 ^ (n * 138 / 100 + 1)) by (apply Z.pow_nonneg; lia).
  apply (Z.pow_le_mono_l_iff _ _ 100 Ha Hb ltac:(lia)).
  rewrite <- !Z.pow_mul_r by lia.
  apply Z.le_trans with (58 ^ (n * 138)).
  - rewrite (Z.mul_comm n 100), (Z.mul_comm n 138).
    rewrite !Z.pow_mul_r by lia.
    apply Z.pow_le_mono_l. split; [apply Z.pow_nonneg; lia|].
    vm_compute. discriminate.
  - apply Z.pow_le_mono_r; [lia|].
    pose proof (Z.div_mod (n * 138) 100 ltac:(lia)).
    pose proof (Z.mod_pos_bound (n * 138) 100 ltac:(lia)). lia.
Qed.

(** ** Zero prefixes *)

Lemma count_zero_bytes_split (l : list byte) :
  exists tail,
    l = repeat x00 (count_zero_bytes l) ++ tail
    /\ skipn (count_zero_bytes l) l = tail
    /\ (tail = [] \/ exists b t, tail = b :: t /\ b <> x00).
Proof.
  induction l as [|b l [tail (H1 & H2 & H3)]].
  - exists []. cbn. auto.
  - cbn [count_zero_bytes]. destruct (u8 b =? 0) eqn:E.
    + apply Z.eqb_eq, u8_zero_iff in E. subst b.
      exists tail. cbn [repeat app skipn]. rewrite <- H1. auto.
    + apply Z.eqb_neq in E. exists (b :: l). cbn.
      repeat split. right. exists b, l. split; [reflexivity|].
      intros ->. apply E. reflexivity.
Qed.

Lemma count_zero_digits_split (l : list Z) :
  exists tail,
    l = repeat 0 (count_zero_digits l) ++ tail
    /\ skipn (count_zero_digits l) l = tail
    /\ (tail = [] \/ exists d t, tail = d :: t /\ d <> 0).
Proof.
  induction l as [|d l [tail (H1 & H2 & H3)]].
  - exists []. cbn. auto.
  - cbn [count_zero_digits]. destruct (d =? 0) eqn:E.
    + apply Z.eqb_eq in E. subst d.
      exists tail. cbn [repeat app skipn]. rewrite <- H1. auto.
    + apply Z.eqb_neq in E. exists (d :: l). cbn.
      repeat split. right. exists d, l. auto.
Qed.

Lemma count_ones_app (n : nat) (tail : list byte) :
  (tail = [] \/ exists c t, tail = c :: t /\ c <> "1"%byte) ->
  count_ones (repeat "1"%byte n ++ tail) = n.
Proof.
  intros Htail. induction n as [|n IH].
  - cbn. destruct Htail as [->|[c [t [-> Hc]]]]; [reflexivity|].
    cbn. apply byte_eqb_neq in Hc. rewrite Hc. reflexivity.
  - cbn. rewrite IH. reflexivity.
Qed.

Lemma count_ones_split (l : list byte) :
  exists tail,
    l = repeat "1"%byte (count_ones l) ++ tail
    /\ skipn (count_ones l) l = tail
    /\ (tail = [] \/ exists c t, tail = c :: t /\ c <> "1"%byte).
Proof.
  induction l as [|c l [tail (H1 & H2 & H3)]].
  - exists []. cbn. auto.
  - cbn [count_ones]. destruct (Byte.eqb c "1"%byte) eqn:E.
    + apply byte_eqb_spec in E. subst c.
      exists tail. cbn [repeat app skipn]. rewrite <- H1. auto.
    + apply byte_eqb_neq in E. exists (c :: l). cbn.
      repeat split. right. exists c, l. auto.
Qed.

Lemma bytes_value_zeros (n : nat) (l : list byte) :
  bytes_value (repeat x00 n ++ l) = bytes_value l.
Proof.
  unfold bytes_value. rewrite map_app, map_repeat.
  change (u8 x00) with 0. apply horner_zeros.
Qed.

Lemma bytes_value_range (l : list byte) :
  0 <= bytes_value l < 256 ^ Z.of_nat (length l).
Proof.
  unfold bytes_value.
  pose proof (horner_range 256 ltac:(lia) _ (in_base_map_u8 l)) as H.
  rewrite length_map in H. exact H.
Qed.

Lemma bytes_value_inj (l1 l2 : list byte) :
  length l1 = length l2 -> bytes_value l1 = bytes_value l2 -> l1 = l2.
Proof.
  intros Hlen Hval.
  assert (Hmap : map u8 l1 = map u8 l2).
  { apply (horner_inj 256); auto using in_base_map_u8; try lia.
    all: rewrite ?length_map; auto. }
  clear Hlen Hval. revert l2 Hmap.
  induction l1 as [|a l1 IH]; intros [|b l2] Hmap; try discriminate; auto.
  cbn in Hmap. injection Hmap as Hab Hmap.
  f_equal; [apply u8_inj; exact Hab | apply IH; exact Hmap].
Qed.

(** ** Encoder: the scratch buffer *)

Lemma nth_in_base B (l : list Z) (j : nat) :
  0 < B -> in_base B l -> 0 <= nth j l 0 < B.
Proof.
  intros HB Hl. destruct (nth_in_or_default j l 0) as [Hin|Hd]; [|rewrite Hd; lia].
  unfold in_base in Hl. rewrite Forall_forall in Hl. apply Hl. exact Hin.
Qed.

Lemma in_base_upd B (l : list Z) (j : nat) (v : Z) :
  in_base B l -> 0 <= v < B -> in_base B (upd j v l).
Proof.
  unfold in_base. intros Hl Hv. revert j.
  induction Hl as [|x l Hx Hl IH]; intros [|j]; cbn; constructor; auto.
Qed.

Lemma enc_inner_wf :
  forall j high carry buf,
    0 <= carry -> in_base 58 buf ->
    length (fst (enc_inner high carry j buf)) = length buf
    /\ in_base 58 (fst (enc_inner high carry j buf)).
Proof.
  induction j as [|j IH]; intros high carry buf Hc Hbuf;
    rewrite enc_inner_eq;
    destruct ((high <? _)%nat || negb (carry =? 0)); cbv zeta; auto;
    pose proof (nth_in_base 58 buf) as Hn;
    match goal with
    | |- context [nth ?i buf 0] => specialize (Hn i ltac:(lia) Hbuf)
    end;
    match goal with
    | |- context [Z.rem ?c 58] =>
        destruct (digit_store c ltac:(lia)) as [Hm Hq];
        pose proof (Z.mod_pos_bound c 58 ltac:(lia)) as Hmod;
        pose proof (Z.div_pos c 58 ltac:(lia) ltac:(lia)) as Hdiv
    end.
  - cbn [fst]. rewrite length_upd, Hm. split; [reflexivity|].
    apply in_base_upd; auto.
  - rewrite Hm, Hq.
    match goal with
    | |- context [enc_inner high ?c j ?b] =>
        destruct (IH high c b) as [Hl Hb]; [lia| apply in_base_upd; auto |]
    end.
    rewrite Hl, length_upd. auto.
Qed.

Lemma enc_outer_wf (last : nat) :
  forall rest buf high,
    in_base 58 buf ->
    length (enc_outer rest last high buf) = length buf
    /\ in_base 58 (enc_outer rest last high buf).
Proof.
  induction rest as [|b rest IH]; intros buf high Hbuf; cbn [enc_outer]; auto.
  pose proof (enc_inner_wf last high (u8 b) buf
                ltac:(pose proof (u8_range b); lia) Hbuf) as [Hl Hb].
  destruct (enc_inner high (u8 b) last buf) as [buf' j]. cbn [fst] in *.
  destruct (IH buf' j Hb) as [Hl' Hb']. rewrite Hl', Hl. auto.
Qed.

Lemma enc_size_bounds (binsz zcount : Z) :
  1 <= enc_size binsz zcount <= 2 ^ 64 / 100 + 1.
Proof.
  unfold enc_size, wrap64.
  pose proof (Z.mod_pos_bound (((binsz - zcount) mod 2 ^ 64) * 138) (2 ^ 64)
                ltac:(lia)) as H.
  pose proof (Z.div_pos ((((binsz - zcount) mod 2 ^ 64) * 138) mod 2 ^ 64) 100
                ltac:(lia) ltac:(lia)).
  pose proof (Z.div_le_mono ((((binsz - zcount) mod 2 ^ 64) * 138) mod 2 ^ 64)
                (2 ^ 64) 100 ltac:(lia) ltac:(lia)).
  lia.
Qed.

Lemma enc_digits_wf (data : list byte) :
  Z.of_nat (length (enc_digits data))
  = enc_size (Z.of_nat (length data)) (Z.of_nat (count_zero_bytes data))
  /\ in_base 58 (enc_digits data).
Proof.
  unfold enc_digits.
  pose proof (enc_size_bounds (Z.of_nat (length data))
                (Z.of_nat (count_zero_bytes data))) as Hs.
  match goal with
  | |- context [enc_outer ?r ?l ?h ?b] =>
      destruct (enc_outer_wf l r b h) as [Hl Hb]
  end.
  - apply in_base_repeat0. lia.
  - rewrite Hl, repeat_length. split; [lia | exact Hb].
Qed.

Lemma count_zero_bytes_le (l : list byte) :
  (count_zero_bytes l <= length l)%nat.
Proof.
  induction l as [|b l IH]; cbn; [lia|]. destruct (u8 b =? 0); lia.
Qed.

Lemma count_zero_digits_le (l : list Z) :
  (count_zero_digits l <= length l)%nat.
Proof.
  induction l as [|b l IH]; cbn; [lia|]. destruct (b =? 0); lia.
Qed.

(** The conversion is exact: the scratch buffer holds the base-58 digits of
    the number the input bytes denote. *)
Lemma enc_digits_value (data : list byte) :
  138 * Z.of_nat (length data) < 2 ^ 64 ->
  horner 58 0 (enc_digits data) = bytes_value data.
Proof.
  intros Hrange.
  destruct (count_zero_bytes_split data) as [tail (Hsplit & Hskip & _)].
  pose proof (count_zero_bytes_le data) as Hzc.
  assert (Hlen : length data = (count_zero_bytes data + length tail)%nat).
  { rewrite Hsplit at 1. rewrite length_app, repeat_length. reflexivity. }
  unfold enc_digits. rewrite Hskip.
  assert (Hsize : enc_size (Z.of_nat (length data))
                    (Z.of_nat (count_zero_bytes data))
                  = Z.of_nat (length tail) * 138 / 100 + 1).
  { unfold enc_size.
    replace (Z.of_nat (length data) - Z.of_nat (count_zero_bytes data))
      with (Z.of_nat (length tail)) by lia.
    rewrite (wrap64_small (Z.of_nat (length tail))) by lia.
    rewrite wrap64_small by lia. reflexivity. }
  rewrite Hsize.
  pose proof (Z.div_pos (Z.of_nat (length tail) * 138) 100 ltac:(lia) ltac:(lia))
    as Hq.
  set (last := Z.to_nat (Z.of_nat (length tail) * 138 / 100)).
  replace (Z.to_nat (Z.of_nat (length tail) * 138 / 100 + 1)) with (S last)
    by (unfold last; lia).
  replace (S last - 1)%nat with last by lia.
  destruct (enc_outer_spec last tail (repeat 0 (S last)) last) as (_ & _ & Hv).
  - apply repeat_length.
  - apply in_base_repeat0. lia.
  - intros _. apply Forall_firstn, Forall_repeat. reflexivity.
  - rewrite horner_repeat0.
    pose proof (bytes_value_range tail) as Hr. unfold bytes_value in Hr.
    pose proof (pow256_le_pow58 (Z.of_nat (length tail)) ltac:(lia)) as Hp.
    replace (Z.of_nat (S last)) with (Z.of_nat (length tail) * 138 / 100 + 1)
      by (unfold last; lia).
    lia.
  - rewrite Hv, horner_repeat0. rewrite Hsplit at 1.
    rewrite bytes_value_zeros. reflexivity.
Qed.

(** ** Encoder: the result *)

Lemma length_enc_string (data : list byte) :
  Z.of_nat (length (enc_string data))
  = Z.of_nat (count_zero_bytes data)
    + enc_size (Z.of_nat (length data)) (Z.of_nat (count_zero_bytes data))
    - Z.of_nat (count_zero_digits (enc_digits data)).
Proof.
  unfold enc_string. cbv zeta.
  rewrite length_app, repeat_length, length_map, length_skipn.
  destruct (enc_digits_wf data) as [Hl _].
  pose proof (count_zero_digits_le (enc_digits data)). lia.
Qed.

(** [b58enc] compares the capacity with the length of the string and
    either reports that length plus one or writes the string. *)
Lemma b58enc_char (cap : Z) (data : list byte) :
  Z.of_nat (length data) < 2 ^ 63 ->
  b58enc cap data =
  if cap <=? Z.of_nat (length (enc_string data))
  then inl (Z.of_nat (length (enc_string data)) + 1)
  else inr (enc_string data ++ [x00], Z.of_nat (length (enc_string data)) + 1).
Proof.
  intros Hn.
  pose proof (length_enc_string data) as HL.
  destruct (enc_digits_wf data) as [Hl _].
  pose proof (count_zero_digits_le (enc_digits data)) as Hj.
  pose proof (count_zero_bytes_le data) as Hz.
  pose proof (enc_size_bounds (Z.of_nat (length data))
                (Z.of_nat (count_zero_bytes data))) as Hs.
  assert (H64 : 2 ^ 64 / 100 + 1 < 2 ^ 63) by (vm_compute; reflexivity).
  unfold b58enc. cbv zeta.
  rewrite <- HL.
  rewrite (wrap64_small (Z.of_nat (length (enc_string data))))
    by (change (2 ^ 64) with (2 * 2 ^ 63); lia).
  rewrite wrap64_small by (change (2 ^ 64) with (2 * 2 ^ 63); lia).
  destruct (cap <=? Z.of_nat (length (enc_string data))); [reflexivity|].
  f_equal. f_equal.
  - unfold enc_string. cbv zeta. rewrite <- app_assoc. reflexivity.
  - rewrite length_skipn, wrap64_small
      by (change (2 ^ 64) with (2 * 2 ^ 63); lia).
    lia.
Qed.

Lemma enc_string_alphabet (data : list byte) :
  Forall (fun c => in_alphabet c = true) (enc_string data).
Proof.
  unfold enc_string. cbv zeta. apply Forall_app. split.
  - apply Forall_repeat. reflexivity.
  - destruct (enc_digits_wf data) as [_ Hb].
    apply Forall_forall. intros c Hc. apply in_map_iff in Hc.
    destruct Hc as [d [<- Hd]].
    apply (digit_char_facts d).
    unfold in_base in Hb. rewrite Forall_forall in Hb. apply Hb.
    rewrite <- (firstn_skipn (count_zero_digits (enc_digits data))).
    apply in_or_app. right. exact Hd.
Qed.

Lemma strlen_alphabet (s rest : list byte) :
  Forall (fun c => in_alphabet c = true) s ->
  (rest = [] \/ exists t, rest = x00 :: t) ->
  c_string (s ++ rest) = s.
Proof.
  intros Hs Hrest. unfold c_string.
  induction Hs as [|c s Hc Hs IH].
  - destruct Hrest as [->|[t ->]]; reflexivity.
  - cbn [app strlen].
    destruct (alphabet_char_facts c Hc) as (_ & _ & _ & Hnz & _).
    apply byte_eqb_neq in Hnz. rewrite Hnz. cbn [firstn]. rewrite IH.
    reflexivity.
Qed.

(** ** Decoder: one multiply-accumulate pass *)

Lemma pow32_pos (n : nat) : 0 < (2 ^ 32) ^ Z.of_nat n.
Proof. apply Z.pow_pos_nonneg; lia. Qed.

(** A pass over the chunks computes [58 * value + c], the part that does
    not fit in the chunks being the carry out. *)
Lemma mul58_add_spec (outi : list Z) (c : Z) :
  in_base (2 ^ 32) outi -> 0 <= c < 58 ->
  length (fst (mul58_add outi c)) = length outi
  /\ in_base (2 ^ 32) (fst (mul58_add outi c))
  /\ 0 <= snd (mul58_add outi c) < 58
  /\ horner (2 ^ 32) 0 (fst (mul58_add outi c))
     + snd (mul58_add outi c) * (2 ^ 32) ^ Z.of_nat (length outi)
     = 58 * horner (2 ^ 32) 0 outi + c.
Proof.
  intros Hwf Hc. induction Hwf as [|x rest Hx Hrest IH].
  - cbn. repeat split; try lia. constructor.
  - cbn [mul58_add].
    destruct (mul58_add rest c) as [rest' c1]. cbn [fst snd] in IH.
    destruct IH as (Hl & Hb & Hc1 & Hv).
    assert (Ht : 0 <= x * 58 + c1 < 58 * 2 ^ 32) by lia.
    rewrite (wrap64_small (x * 58 + c1)) by lia.
    rewrite almostmaxint_mask_eq, Z.land_ones by lia.
    change b58_almostmaxint_bits with 32.
    rewrite Z.shiftr_div_pow2 by lia.
    pose proof (Z.mod_pos_bound (x * 58 + c1) (2 ^ 32) ltac:(lia)) as Hm.
    pose proof (Z.div_mod (x * 58 + c1) (2 ^ 32) ltac:(lia)) as Hdm.
    assert (Hq : 0 <= (x * 58 + c1) / 2 ^ 32 < 58).
    { split; [apply Z.div_pos; lia | apply Z.div_lt_upper_bound; lia]. }
    rewrite wrap32_small by lia.
    cbn [fst snd length].
    repeat split; try lia.
    + constructor; [cbv beta; lia | exact Hb].
    + rewrite !horner_cons0, Hl.
      rewrite Nat2Z.inj_succ, Z.pow_succ_r by lia.
      pose proof (pow32_pos (length rest)). nia.
Qed.

(** The mask test on chunk 0. *)
Lemma land_high_mask (x m k : Z) :
  0 <= m -> 0 <= k -> 0 <= x < 2 ^ (m + k) ->
  Z.land x (Z.shiftl (Z.ones k) m) = x / 2 ^ m * 2 ^ m.
Proof.
  intros Hm Hk Hx.
  rewrite <- Z.shiftr_div_pow2, <- Z.shiftl_mul_pow2 by lia.
  apply Z.bits_inj'. intros n Hn.
  rewrite Z.land_spec.
  destruct (Z.lt_ge_cases n m) as [Hlt|Hge].
  - rewrite !Z.shiftl_spec_low by lia. apply andb_false_r.
  - rewrite !Z.shiftl_spec, Z.shiftr_spec by lia.
    replace (n - m + m) with n by lia.
    destruct (Z.lt_ge_cases (n - m) k) as [Hlow|Hhigh].
    + rewrite Z.ones_spec_low by lia. apply andb_true_r.
    + rewrite Z.ones_spec_high by lia. rewrite andb_false_r.
      symmetry.
      destruct (Z.eq_dec x 0) as [->|Hx0]; [apply Z.bits_0|].
      apply Z.bits_above_log2; [lia|].
      apply Z.lt_le_trans with (m + k); [|lia].
      apply Z.log2_lt_pow2; lia.
Qed.

Lemma zeromask_test (binsz x : Z) :
  bytesleft binsz <> 0 -> 0 <= x < 2 ^ 32 ->
  Z.land x (zeromask binsz) = 0 <-> x < 2 ^ (8 * (binsz mod 4)).
Proof.
  intros Hr Hx. unfold zeromask.
  destruct (bytesleft binsz =? 0) eqn:E; [apply Z.eqb_eq in E; contradiction|].
  cbn [negb]. clear E. revert Hr. unfold bytesleft.
  pose proof (Z.mod_pos_bound binsz 4 ltac:(lia)) as Hb.
  rewrite wrap8_small by (change (2 ^ 8) with 256; lia).
  intros Hr.
  assert (Hmask : wrap32 (Z.shiftl b58_almostmaxint_mask (binsz mod 4 * 8))
                  = Z.shiftl (Z.ones (32 - 8 * (binsz mod 4))) (8 * (binsz mod 4))).
  { assert (Hcases : binsz mod 4 = 1 \/ binsz mod 4 = 2 \/ binsz mod 4 = 3) by lia.
    destruct Hcases as [->|[->| ->]]; reflexivity. }
  rewrite Hmask, land_high_mask
    by (try lia; replace (8 * (binsz mod 4) + (32 - 8 * (binsz mod 4))) with 32 by lia;
        lia).
  assert (Hp : 0 < 2 ^ (8 * (binsz mod 4))) by (apply Z.pow_pos_nonneg; lia).
  pose proof (Z.div_pos x (2 ^ (8 * (binsz mod 4))) ltac:(lia) Hp) as Hq.
  split; intros H.
  - assert (Hq0 : x / 2 ^ (8 * (binsz mod 4)) = 0) by nia.
    apply Z.div_small_iff in Hq0; lia.
  - rewrite Z.div_small by lia. reflexivity.
Qed.

(** ** Decoder: capacity *)

Lemma pow256_chunks (q : Z) : 0 <= q -> 256 ^ (4 * q) = (2 ^ 32) ^ q.
Proof. intros Hq. rewrite Z.pow_mul_r by lia. reflexivity. Qed.

Lemma capacity_geometry (binsz : Z) :
  0 < binsz -> binsz + 3 < 2 ^ 64 ->
  bytesleft binsz = binsz mod 4
  /\ ((binsz mod 4 = 0 /\ binsz = 4 * outisz binsz)
      \/ (binsz mod 4 <> 0 /\ binsz = 4 * (outisz binsz - 1) + binsz mod 4))
  /\ 1 <= outisz binsz.
Proof.
  intros Hpos Hmax. unfold bytesleft, outisz.
  pose proof (Z.mod_pos_bound binsz 4 ltac:(lia)) as Hb.
  rewrite wrap8_small by (change (2 ^ 8) with 256; lia).
  rewrite wrap64_small by lia.
  pose proof (Z.div_mod binsz 4 ltac:(lia)) as Hdm.
  pose proof (Z.div_mod (binsz + 4 - 1) 4 ltac:(lia)) as Hdm'.
  pose proof (Z.mod_pos_bound (binsz + 4 - 1) 4 ltac:(lia)) as Hb'.
  split; [reflexivity|]. lia.
Qed.

(** The two overflow tests after a pass hold exactly when the new value
    fits in [binsz] bytes. *)
Lemma fits_test (binsz : Z) (outi : list Z) (c : Z) :
  0 < binsz -> binsz + 3 < 2 ^ 64 ->
  Z.of_nat (length outi) = outisz binsz ->
  in_base (2 ^ 32) outi -> 0 <= c ->
  (c = 0 /\ Z.land (nth 0 outi 0) (zeromask binsz) = 0)
  <-> horner (2 ^ 32) 0 outi + c * (2 ^ 32) ^ Z.of_nat (length outi)
      < 256 ^ binsz.
Proof.
  intros Hpos Hmax Hlen Hwf Hc.
  destruct (capacity_geometry binsz Hpos Hmax) as (Hbl & Hgeo & Hn).
  pose proof (horner_range (2 ^ 32) ltac:(lia) outi Hwf) as Hr.
  pose proof (pow32_pos (length outi)) as Hp.
  destruct Hgeo as [[Hr0 Hsz]|[Hr0 Hsz]].
  - (* binsz is a multiple of the chunk width: only the carry matters *)
    assert (Hz : zeromask binsz = 0).
    { unfold zeromask. rewrite Hbl, Hr0. reflexivity. }
    rewrite Hz, Z.land_0_r, Hsz, pow256_chunks, <- Hlen by lia.
    split; [intros [-> _]; lia | intros H; split; [nia|reflexivity]].
  - (* chunk 0 holds [binsz mod 4] bytes only *)
    destruct outi as [|h t]; [cbn in Hlen; lia|].
    cbn [nth length] in *. inversion Hwf as [|? ? Hh Ht]; subst.
    pose proof (horner_range (2 ^ 32) ltac:(lia) t Ht) as Hrt.
    pose proof (pow32_pos (length t)) as Hpt.
    rewrite horner_cons0.
    pose proof (Z.mod_pos_bound binsz 4 ltac:(lia)) as Hb.
    assert (Hbound : 256 ^ binsz
                     = 2 ^ (8 * (binsz mod 4)) * (2 ^ 32) ^ Z.of_nat (length t)).
    { rewrite Hsz at 1.
      replace (outisz binsz - 1) with (Z.of_nat (length t)) by lia.
      rewrite Z.pow_add_r, pow256_chunks by lia.
      replace (256 ^ (binsz mod 4)) with (2 ^ (8 * (binsz mod 4)))
        by (rewrite Z.pow_mul_r by lia; reflexivity).
      ring. }
    rewrite Hbound.
    assert (Hsmall : 2 ^ (8 * (binsz mod 4)) < 2 ^ 32)
      by (apply Z.pow_lt_mono_r; lia).
    assert (Hp8 : 0 < 2 ^ (8 * (binsz mod 4))) by (apply Z.pow_pos_nonneg; lia).
    rewrite (Nat2Z.inj_succ (length t)), Z.pow_succ_r in * by lia.
    rewrite zeromask_test by (rewrite ?Hbl; lia).
    split.
    + intros [-> Hlt]. nia.
    + intros H. assert (c = 0) by nia. subst c. split; [reflexivity|]. nia.
Qed.

Lemma in_base_digits (s : list byte) :
  Forall (fun c => in_alphabet c = true) s -> in_base 58 (map digit_of s).
Proof.
  induction 1 as [|c s Hc Hs IH]; cbn; constructor; auto.
  apply (alphabet_char_facts c Hc).
Qed.

(** The digit loop on a string of alphabet characters: it ends with the
    chunks holding the value of the digits when that value fits in [binsz]
    bytes, and it returns [false] otherwise. *)
Lemma b58_accumulate_spec (binsz : Z) :
  0 < binsz -> binsz + 3 < 2 ^ 64 ->
  forall s outi,
    Forall (fun c => in_alphabet c = true) s ->
    Z.of_nat (length outi) = outisz binsz ->
    in_base (2 ^ 32) outi ->
    horner (2 ^ 32) 0 outi < 256 ^ binsz ->
    match b58_accumulate (zeromask binsz) s outi with
    | inr outi' =>
        Z.of_nat (length outi') = outisz binsz
        /\ in_base (2 ^ 32) outi'
        /\ horner (2 ^ 32) 0 outi'
           = horner 58 (horner (2 ^ 32) 0 outi) (map digit_of s)
        /\ horner (2 ^ 32) 0 outi' < 256 ^ binsz
    | inl e =>
        e = OutputTooBig
        /\ 256 ^ binsz <= horner 58 (horner (2 ^ 32) 0 outi) (map digit_of s)
    end.
Proof.
  intros Hpos Hmax s. induction s as [|ch s IH]; intros outi Hs Hlen Hwf Hfit.
  - cbn. auto.
  - inversion Hs as [|? ? Hch Hs']; subst.
    destruct (alphabet_char_facts ch Hch) as (Hhigh & Hd & _).
    cbn [b58_accumulate map]. rewrite Hhigh. cbn [Z.eqb negb]. cbv zeta.
    destruct (digit_of ch =? -1) eqn:E; [apply Z.eqb_eq in E; lia|].
    rewrite wrap32_small by lia.
    pose proof (mul58_add_spec outi (digit_of ch) Hwf Hd) as (Hl' & Hb' & Hc' & Hv').
    destruct (mul58_add outi (digit_of ch)) as [outi' c']. cbn [fst snd] in *.
    pose proof (fits_test binsz outi' c' Hpos Hmax ltac:(lia) Hb' ltac:(lia))
      as Htest.
    rewrite Hl', Hv' in Htest. rewrite horner_cons.
    pose proof (horner_range (2 ^ 32) ltac:(lia) outi Hwf) as Hr.
    pose proof (horner_ge_acc 58 ltac:(lia)
                  (horner (2 ^ 32) 0 outi * 58 + digit_of ch) (map digit_of s)
                  ltac:(lia) (in_base_digits s Hs')) as Hge.
    destruct (c' =? 0) eqn:Ec; cbn [negb].
    + apply Z.eqb_eq in Ec. subst c'.
      destruct (Z.land (nth 0 outi' 0) (zeromask binsz) =? 0) eqn:Em; cbn [negb].
      * apply Z.eqb_eq in Em.
        assert (Hnew : horner (2 ^ 32) 0 outi'
                       = horner (2 ^ 32) 0 outi * 58 + digit_of ch) by lia.
        rewrite <- Hnew. apply IH; auto; lia.
      * apply Z.eqb_neq in Em. split; [reflexivity|].
        assert (~ 58 * horner (2 ^ 32) 0 outi + digit_of ch < 256 ^ binsz)
          by (rewrite <- Htest; tauto).
        lia.
    + apply Z.eqb_neq in Ec. split; [reflexivity|].
      assert (~ 58 * horner (2 ^ 32) 0 outi + digit_of ch < 256 ^ binsz)
        by (rewrite <- Htest; tauto).
      lia.
Qed.

(** ** Decoder: serialization *)

Lemma bytes_value_app (l1 l2 : list byte) :
  bytes_value (l1 ++ l2)
  = bytes_value l1 * 256 ^ Z.of_nat (length l2) + bytes_value l2.
Proof.
  unfold bytes_value. rewrite map_app, horner_app0, length_map. reflexivity.
Qed.

Lemma bytes_value_cons (b : byte) (l : list byte) :
  bytes_value (b :: l) = u8 b * 256 ^ Z.of_nat (length l) + bytes_value l.
Proof.
  unfold bytes_value. cbn [map]. rewrite horner_cons0, length_map. reflexivity.
Qed.

Lemma length_chunk_bytes (k : nat) (x : Z) : length (chunk_bytes k x) = k.
Proof. induction k as [|k IH]; cbn; [reflexivity|]. rewrite IH. reflexivity. Qed.

(** The bytes written for a chunk are its [k] low bytes, high byte first. *)
Lemma chunk_bytes_value (k : nat) (x : Z) :
  0 <= x -> bytes_value (chunk_bytes k x) = x mod 256 ^ Z.of_nat k.
Proof.
  intros Hx. induction k as [|k IH].
  - cbn. rewrite Z.mod_1_r. reflexivity.
  - cbn [chunk_bytes]. rewrite bytes_value_cons, length_chunk_bytes, IH.
    rewrite u8_to_u8.
    change 255 with (Z.ones 8). rewrite Z.land_ones by lia.
    change (2 ^ 8) with 256. rewrite Z.mod_mod by lia.
    rewrite Z.shiftr_div_pow2 by lia.
    replace (2 ^ (8 * Z.of_nat k)) with (256 ^ Z.of_nat k)
      by (rewrite Z.pow_mul_r by lia; reflexivity).
    assert (Hp : 0 < 256 ^ Z.of_nat k) by (apply Z.pow_pos_nonneg; lia).
    rewrite Nat2Z.inj_succ, Z.pow_succ_r by lia.
    rewrite (Z.mul_comm 256), Z.rem_mul_r by lia. ring.
Qed.

Lemma flat_chunks_spec (l : list Z) :
  in_base (2 ^ 32) l ->
  length (flat_map (chunk_bytes 4) l) = (4 * length l)%nat
  /\ bytes_value (flat_map (chunk_bytes 4) l) = horner (2 ^ 32) 0 l.
Proof.
  induction 1 as [|x l Hx Hl [IHl IHv]].
  - split; reflexivity.
  - cbn [flat_map]. rewrite length_app, length_chunk_bytes, IHl.
    split; [cbn [length]; lia|].
    rewrite bytes_value_app, chunk_bytes_value, IHl, IHv, horner_cons0 by lia.
    change (256 ^ Z.of_nat 4) with (2 ^ 32).
    rewrite Z.mod_small by lia.
    rewrite Nat2Z.inj_mul, pow256_chunks by lia. reflexivity.
Qed.

(** The buffer written holds the value of the chunks in exactly [binsz]
    bytes. *)
Lemma serialize_spec (binsz : Z) (outi : list Z) :
  0 < binsz -> binsz + 3 < 2 ^ 64 ->
  Z.of_nat (length outi) = outisz binsz ->
  in_base (2 ^ 32) outi ->
  horner (2 ^ 32) 0 outi < 256 ^ binsz ->
  Z.of_nat (length (serialize (bytesleft binsz) outi)) = binsz
  /\ bytes_value (serialize (bytesleft binsz) outi) = horner (2 ^ 32) 0 outi.
Proof.
  intros Hpos Hmax Hlen Hwf Hfit.
  destruct (capacity_geometry binsz Hpos Hmax) as (Hbl & Hgeo & Hn).
  unfold serialize. rewrite Hbl.
  destruct Hgeo as [[Hr0 Hsz]|[Hr0 Hsz]].
  - rewrite Hr0. cbn [Z.eqb negb].
    destruct (flat_chunks_spec outi Hwf) as [Hl Hv]. split; [lia|exact Hv].
  - destruct (binsz mod 4 =? 0) eqn:E; [apply Z.eqb_eq in E; contradiction|].
    cbn [negb]. clear E.
    destruct outi as [|h t]; [cbn in Hlen; lia|].
    cbn [nth tl length] in *. inversion Hwf as [|? ? Hh Ht]; subst.
    destruct (flat_chunks_spec t Ht) as [Hl Hv].
    pose proof (Z.mod_pos_bound binsz 4 ltac:(lia)) as Hb.
    rewrite length_app, length_chunk_bytes, Hl.
    split; [lia|].
    rewrite bytes_value_app, chunk_bytes_value, Hl, Hv, horner_cons0 by lia.
    rewrite Nat2Z.inj_mul, pow256_chunks, Z2Nat.id by lia.
    f_equal. f_equal.
    (* chunk 0 has no bit above its [binsz mod 4] bytes *)
    apply Z.mod_small. split; [lia|].
    pose proof (horner_range (2 ^ 32) ltac:(lia) t Ht) as Hrt.
    pose proof (pow32_pos (length t)) as Hpt.
    rewrite horner_cons0 in Hfit.
    assert (Hbound : 256 ^ binsz
                     = 256 ^ (binsz mod 4) * (2 ^ 32) ^ Z.of_nat (length t)).
    { rewrite Hsz at 1.
      replace (outisz binsz - 1) with (Z.of_nat (length t)) by lia.
      rewrite Z.pow_add_r, pow256_chunks by lia. ring. }
    rewrite Hbound in Hfit.
    assert (Hp : 0 < 256 ^ (binsz mod 4)) by (apply Z.pow_pos_nonneg; lia).
    nia.
Qed.

(** ** Decoder: the canonical byte count *)

Lemma count_canonical_zeros (zerocount : Z) (k : nat) (tail : list byte) :
  forall i sz,
    0 <= sz < 2 ^ 64 ->
    count_canonical zerocount (repeat x00 k ++ tail) i sz
    = count_canonical zerocount tail (i + Z.of_nat k) (wrap64 (sz - Z.of_nat k)).
Proof.
  induction k as [|k IH]; intros i sz Hsz.
  - cbn [repeat app Z.of_nat]. rewrite Z.add_0_r, Z.sub_0_r, wrap64_small by lia.
    reflexivity.
  - cbn [repeat app count_canonical]. change (u8 x00) with 0. cbn [Z.eqb negb].
    rewrite IH by (unfold wrap64; apply Z.mod_pos_bound; lia).
    f_equal; [lia|].
    unfold wrap64. rewrite Zminus_mod_idemp_l. f_equal. lia.
Qed.

(** The loop on a buffer with [k] leading zero bytes. *)
Lemma count_canonical_spec (zerocount : Z) (bin : list byte) (binsz : Z) :
  Z.of_nat (length bin) = binsz -> binsz < 2 ^ 64 ->
  count_canonical zerocount bin 0 binsz
  = if (Z.of_nat (count_zero_bytes bin) <? binsz)
       && (zerocount >? Z.of_nat (count_zero_bytes bin))
    then None
    else Some (binsz - Z.of_nat (count_zero_bytes bin)).
Proof.
  intros Hlen Hmax.
  destruct (count_zero_bytes_split bin) as [tail (Hsplit & _ & Htail)].
  pose proof (count_zero_bytes_le bin) as Hle.
  assert (Hl : length bin = (count_zero_bytes bin + length tail)%nat).
  { rewrite Hsplit at 1. rewrite length_app, repeat_length. reflexivity. }
  rewrite Hsplit at 1. rewrite count_canonical_zeros by lia.
  rewrite wrap64_small by lia. rewrite Z.add_0_l.
  destruct Htail as [->|[b [t [-> Hb]]]].
  - cbn [count_canonical]. cbn [length] in Hl.
    replace (Z.of_nat (count_zero_bytes bin) <? binsz) with false
      by (symmetry; apply Z.ltb_ge; lia).
    reflexivity.
  - cbn [count_canonical].
    assert (Hnz : u8 b <> 0) by (rewrite u8_zero_iff; exact Hb).
    apply Z.eqb_neq in Hnz. rewrite Hnz. cbn [negb]. cbn [length] in Hl.
    replace (Z.of_nat (count_zero_bytes bin) <? binsz) with true
      by (symmetry; apply Z.ltb_lt; lia).
    reflexivity.
Qed.

(** ** Decoder: the result on strings of alphabet characters *)

Lemma b58_value_skip_ones (s : list byte) :
  b58_value (skipn (count_ones s) s) = b58_value s.
Proof.
  destruct (count_ones_split s) as [tail (Hsplit & Hskip & _)].
  rewrite Hskip. rewrite Hsplit at 1.
  unfold b58_value. rewrite map_app, map_repeat.
  change (digit_of "1"%byte) with 0. rewrite horner_zeros. reflexivity.
Qed.

Lemma Forall_skipn {A : Type} (P : A -> Prop) n (l : list A) :
  Forall P l -> Forall P (skipn n l).
Proof.
  intros H. rewrite <- (firstn_skipn n l) in H. apply Forall_app in H. tauto.
Qed.

(** The digit loop of [b58tobin], run from the zeroed chunks. *)
Lemma b58tobin_digits (binsz : Z) (mem : list byte) :
  0 < binsz -> binsz + 3 < 2 ^ 64 ->
  Forall (fun c => in_alphabet c = true) (c_string mem) ->
  match b58_accumulate (zeromask binsz)
          (skipn (count_ones (c_string mem)) (c_string mem))
          (repeat 0 (Z.to_nat (outisz binsz))) with
  | inr outi' =>
      Z.of_nat (length outi') = outisz binsz
      /\ in_base (2 ^ 32) outi'
      /\ horner (2 ^ 32) 0 outi' = b58_value (c_string mem)
      /\ b58_value (c_string mem) < 256 ^ binsz
  | inl e => e = OutputTooBig /\ 256 ^ binsz <= b58_value (c_string mem)
  end.
Proof.
  intros Hpos Hmax Hs.
  destruct (capacity_geometry binsz Hpos Hmax) as (_ & _ & Hn).
  pose proof (b58_accumulate_spec binsz Hpos Hmax
                (skipn (count_ones (c_string mem)) (c_string mem))
                (repeat 0 (Z.to_nat (outisz binsz)))) as H.
  rewrite horner_repeat0 in H.
  fold (b58_value (skipn (count_ones (c_string mem)) (c_string mem))) in H.
  rewrite b58_value_skip_ones in H.
  specialize (H (Forall_skipn _ _ _ Hs)).
  rewrite repeat_length in H. specialize (H ltac:(lia)).
  specialize (H (in_base_repeat0 (2 ^ 32) ltac:(lia) _)).
  specialize (H ltac:(apply Z.pow_pos_nonneg; lia)).
  destruct (b58_accumulate _ _ _) as [e|outi'].
  - exact H.
  - destruct H as (H1 & H2 & H3 & H4). rewrite <- H3. auto.
Qed.

(** A string whose value does not fit in [binsz] bytes. *)
Lemma b58tobin_too_big (binsz : Z) (mem : list byte) :
  0 < binsz -> binsz + 3 < 2 ^ 64 ->
  Forall (fun c => in_alphabet c = true) (c_string mem) ->
  256 ^ binsz <= b58_value (c_string mem) ->
  b58tobin binsz mem = inl OutputTooBig.
Proof.
  intros Hpos Hmax Hs Hbig.
  pose proof (b58tobin_digits binsz mem Hpos Hmax Hs) as H.
  unfold b58tobin. rewrite (proj2 (Z.eqb_neq binsz 0)) by lia. cbv zeta.
  destruct (b58_accumulate _ _ _) as [e|outi'].
  - destruct H as [-> _]. reflexivity.
  - lia.
Qed.

(** A string whose value fits in [binsz] bytes: the buffer receives the
    value as [binsz] big-endian bytes, and the outcome depends on the
    number [k] of leading zero bytes of the buffer. *)
Lemma b58tobin_fits (binsz : Z) (mem : list byte) :
  0 < binsz -> binsz + 3 < 2 ^ 64 ->
  Forall (fun c => in_alphabet c = true) (c_string mem) ->
  Z.of_nat (count_ones (c_string mem)) < 2 ^ 32 ->
  b58_value (c_string mem) < 256 ^ binsz ->
  exists bin,
    Z.of_nat (length bin) = binsz
    /\ bytes_value bin = b58_value (c_string mem)
    /\ b58tobin binsz mem =
       let k := Z.of_nat (count_zero_bytes bin) in
       let zerocount := Z.of_nat (count_ones (c_string mem)) in
       if (k <? binsz) && (zerocount >? k)
       then inl (ResultTooLarge bin)
       else inr (bin, wrap64 (binsz - k + zerocount)).
Proof.
  intros Hpos Hmax Hs Hzc Hfit.
  pose proof (b58tobin_digits binsz mem Hpos Hmax Hs) as H.
  unfold b58tobin. rewrite (proj2 (Z.eqb_neq binsz 0)) by lia. cbv zeta.
  destruct (b58_accumulate _ _ _) as [e|outi']; [lia|].
  destruct H as (Hl & Hwf & Hv & _).
  destruct (serialize_spec binsz outi' Hpos Hmax Hl Hwf) as [Hlen Hval];
    [lia|].
  exists (serialize (bytesleft binsz) outi').
  split; [exact Hlen|]. split; [lia|].
  rewrite firstn_all2 by lia.
  rewrite wrap32_small by lia.
  rewrite count_canonical_spec by lia.
  destruct ((_ <? _) && (_ >? _)); reflexivity.
Qed.

(** ** The encoded string *)

Lemma map_digit_roundtrip (digits : list Z) :
  in_base 58 digits -> map digit_of (map digit_char digits) = digits.
Proof.
  induction 1 as [|d l Hd Hl IH]; [reflexivity|].
  cbn [map]. rewrite IH. f_equal. apply (digit_char_facts d Hd).
Qed.

Lemma digit_char_not_one (d : Z) :
  0 <= d < 58 -> d <> 0 -> digit_char d <> "1"%byte.
Proof.
  intros Hd Hnz Heq. destruct (digit_char_facts d Hd) as [_ Hback].
  rewrite Heq in Hback. apply Hnz. rewrite <- Hback. reflexivity.
Qed.

(** The string written for [data]: alphabet characters only, as many
    leading ['1'] as [data] has leading zero bytes, and the value of
    [data] as its magnitude. *)
Lemma enc_string_facts (data : list byte) :
  138 * Z.of_nat (length data) < 2 ^ 64 ->
  count_ones (enc_string data) = count_zero_bytes data
  /\ b58_value (enc_string data) = bytes_value data
  /\ (bytes_value data <> 0 ->
      exists c t, enc_string data
                  = repeat "1"%byte (count_zero_bytes data) ++ c :: t
                  /\ c <> "1"%byte).
Proof.
  intros Hrange.
  pose proof (enc_digits_value data Hrange) as Hval.
  destruct (enc_digits_wf data) as [_ Hbase].
  destruct (count_zero_digits_split (enc_digits data))
    as [digits (Hsplit & Hskip & Hdigits)].
  assert (Hbd : in_base 58 digits).
  { rewrite <- Hskip. apply Forall_skipn. exact Hbase. }
  assert (Hvd : horner 58 0 digits = bytes_value data).
  { rewrite <- Hval. rewrite Hsplit at 1. rewrite horner_zeros. reflexivity. }
  unfold enc_string. cbv zeta. rewrite Hskip.
  split; [|split].
  - apply count_ones_app.
    destruct Hdigits as [->|[d [t [-> Hd]]]]; [left; reflexivity|right].
    exists (digit_char d), (map digit_char t). split; [reflexivity|].
    apply digit_char_not_one; [|exact Hd].
    apply Forall_inv in Hbd. exact Hbd.
  - unfold b58_value. rewrite map_app, map_repeat.
    change (digit_of "1"%byte) with 0.
    rewrite horner_zeros, map_digit_roundtrip by exact Hbd. exact Hvd.
  - intros Hnz.
    destruct Hdigits as [->|[d [t [-> Hd]]]].
    + cbn in Hvd. congruence.
    + exists (digit_char d), (map digit_char t). split; [reflexivity|].
      apply digit_char_not_one; [|exact Hd].
      apply Forall_inv in Hbd. exact Hbd.
Qed.

Lemma count_zero_bytes_app (n : nat) (b : byte) (rest : list byte) :
  b <> x00 -> count_zero_bytes (repeat x00 n ++ b :: rest) = n.
Proof.
  intros Hb. induction n as [|n IH]; cbn.
  - assert (Hnz : u8 b <> 0) by (rewrite u8_zero_iff; exact Hb).
    apply Z.eqb_neq in Hnz. rewrite Hnz. reflexivity.
  - rewrite IH. reflexivity.
Qed.

Lemma skipn_repeat_app {A : Type} (x : A) (k m : nat) (l : list A) :
  (m <= k)%nat -> skipn m (repeat x k ++ l) = repeat x (k - m) ++ l.
Proof.
  revert m. induction k as [|k IH]; intros [|m] Hm; cbn; try lia; auto.
  apply IH. lia.
Qed.

(** Decoding what the encoder wrote for [data], with any capacity the
    value of [data] fits in. *)
Lemma decode_encoded (binsz : Z) (data : list byte) :
  0 < binsz -> binsz + 3 < 2 ^ 64 ->
  Z.of_nat (length data) < 2 ^ 32 ->
  bytes_value data < 256 ^ binsz ->
  exists bin,
    Z.of_nat (length bin) = binsz
    /\ bytes_value bin = bytes_value data
    /\ b58tobin binsz (enc_string data ++ [x00]) =
       let k := Z.of_nat (count_zero_bytes bin) in
       let zerocount := Z.of_nat (count_zero_bytes data) in
       if (k <? binsz) && (zerocount >? k)
       then inl (ResultTooLarge bin)
       else inr (bin, wrap64 (binsz - k + zerocount)).
Proof.
  intros Hpos Hmax Hlen Hfit.
  destruct (enc_string_facts data ltac:(lia)) as (Hones & Hval & _).
  pose proof (count_zero_bytes_le data) as Hzc.
  pose proof (strlen_alphabet (enc_string data) [x00]
                (enc_string_alphabet data) ltac:(right; eexists; reflexivity))
    as Hstr.
  destruct (b58tobin_fits binsz (enc_string data ++ [x00]) Hpos Hmax)
    as [bin (Hl & Hv & Hres)]; rewrite ?Hstr.
  - apply enc_string_alphabet.
  - rewrite Hones. lia.
  - rewrite Hval. exact Hfit.
  - exists bin. rewrite Hstr, Hones, ?Hval in *. auto.
Qed.

(** * Properties of the codec *)

(** ** Round trip *)

(** C1, as stated, fails for the empty sequence: the encoder writes the
    empty string, and the decoder rejects the capacity 0. *)
Lemma roundtrip_empty_rejected :
  b58enc 64 [] = inr ([x00], 1)
  /\ b58tobin (Z.of_nat (length (@nil byte))) [x00] = inl ZeroCapacity.
Proof. split; reflexivity. Qed.

(** C1 (amended): for every non-empty byte sequence [b] of fewer than 2^32
    bytes, [b58enc] into a buffer large enough for the string and its
    terminator succeeds, and [b58tobin] of the bytes written, with a
    capacity equal to the length of [b], succeeds, fills the buffer with
    exactly [b] and reports the length of [b]. *)
Theorem b58_roundtrip (b : list byte) (cap : Z) :
  b <> [] ->
  Z.of_nat (length b) < 2 ^ 32 ->
  Z.of_nat (length (enc_string b)) < cap ->
  exists b58 sz,
    b58enc cap b = inr (b58, sz)
    /\ b58tobin (Z.of_nat (length b)) b58 = inr (b, Z.of_nat (length b)).
Proof.
  intros Hne Hlen Hcap.
  assert (Hpos : 0 < Z.of_nat (length b)) by (destruct b; [congruence|cbn; lia]).
  exists (enc_string b ++ [x00]), (Z.of_nat (length (enc_string b)) + 1).
  split.
  - rewrite b58enc_char by lia.
    destruct (cap <=? Z.of_nat (length (enc_string b))) eqn:E; [|reflexivity].
    apply Z.leb_le in E. lia.
  - destruct (decode_encoded (Z.of_nat (length b)) b Hpos ltac:(lia) Hlen)
      as [bin (Hl & Hv & Hres)].
    { apply bytes_value_range. }
    assert (bin = b) by (apply bytes_value_inj; [lia|exact Hv]). subst bin.
    rewrite Hres. cbv zeta.
    replace (Z.of_nat (count_zero_bytes b) >? Z.of_nat (count_zero_bytes b))
      with false by (rewrite Z.gtb_ltb, Z.ltb_irrefl; reflexivity).
    rewrite andb_false_r. f_equal. f_equal.
    rewrite wrap64_small by lia. lia.
Qed.

Lemma b58_roundtrip_witness :
  exists b58 sz,
    b58enc 64 [x00; x01; xff] = inr (b58, sz)
    /\ b58tobin 3 b58 = inr ([x00; x01; xff], 3).
Proof.
  apply (b58_roundtrip [x00; x01; xff] 64).
  - discriminate.
  - cbn. lia.
  - vm_compute. reflexivity.
Defined.

(** ** Invalid characters *)

Lemma b58_accumulate_app (zm : Z) (s1 s2 : list byte) :
  forall outi,
    b58_accumulate zm (s1 ++ s2) outi
    = match b58_accumulate zm s1 outi with
      | inl e => inl e
      | inr outi' => b58_accumulate zm s2 outi'
      end.
Proof.
  induction s1 as [|ch s1 IH]; intros outi; [reflexivity|].
  cbn [app b58_accumulate].
  destruct (negb (Z.land (u8 ch) 128 =? 0)); [reflexivity|].
  cbv zeta. destruct (digit_of ch =? -1); [reflexivity|].
  destruct (mul58_add outi (wrap32 (digit_of ch))) as [outi' c].
  destruct (negb (c =? 0)); [reflexivity|].
  destruct (negb (Z.land (nth 0 outi' 0) zm =? 0)); [reflexivity|].
  apply IH.
Qed.

Lemma b58_accumulate_invalid (zm : Z) (c : byte) (post : list byte) (outi : list Z) :
  in_alphabet c = false ->
  b58_accumulate zm (c :: post) outi = inl InvalidDigit.
Proof.
  intros Hc. cbn [b58_accumulate].
  destruct (non_alphabet_rejected c Hc) as [Hhigh|Hdig].
  - apply Z.eqb_neq in Hhigh. rewrite Hhigh. reflexivity.
  - destruct (negb (Z.land (u8 c) 128 =? 0)); [reflexivity|].
    cbv zeta. rewrite Hdig. reflexivity.
Qed.

(** The digit loop fails before anything is written to the output. *)
Lemma b58_accumulate_failure (zm : Z) (s : list byte) :
  forall outi e,
    b58_accumulate zm s outi = inl e -> e = InvalidDigit \/ e = OutputTooBig.
Proof.
  induction s as [|ch s IH]; intros outi e; [discriminate|].
  cbn [b58_accumulate].
  destruct (negb (Z.land (u8 ch) 128 =? 0)); [intros [= <-]; auto|].
  cbv zeta. destruct (digit_of ch =? -1); [intros [= <-]; auto|].
  destruct (mul58_add outi (wrap32 (digit_of ch))) as [outi' c].
  destruct (negb (c =? 0)); [intros [= <-]; auto|].
  destruct (negb (Z.land (nth 0 outi' 0) zm =? 0)); [intros [= <-]; auto|].
  apply IH.
Qed.

Lemma invalid_after_ones (s : list byte) (c : byte) :
  In c s -> in_alphabet c = false -> In c (skipn (count_ones s) s).
Proof.
  intros Hin Hc.
  destruct (count_ones_split s) as [tail (Hsplit & Hskip & _)].
  rewrite Hskip. rewrite Hsplit in Hin. apply in_app_or in Hin.
  destruct Hin as [Hin|Hin]; [|exact Hin].
  apply repeat_spec in Hin. subst c. discriminate Hc.
Qed.

(** The digit loop returns at a byte outside the alphabet, whatever
    follows it, unless it has returned before. *)
Lemma b58_accumulate_stops (zm : Z) (c : byte) :
  in_alphabet c = false ->
  forall pre post outi,
    b58_accumulate zm (pre ++ c :: post) outi
    = match b58_accumulate zm pre outi with
      | inl e => inl e
      | inr _ => inl InvalidDigit
      end.
Proof.
  intros Hc pre post outi. rewrite b58_accumulate_app.
  destruct (b58_accumulate zm pre outi); [reflexivity|].
  apply b58_accumulate_invalid. exact Hc.
Qed.

(** A string with a byte outside the alphabet is rejected, by a failure
    that precedes every write to the output buffer. *)
Lemma b58tobin_invalid_fails (binsz : Z) (mem : list byte) (c : byte) :
  In c (c_string mem) ->
  in_alphabet c = false ->
  exists e,
    b58tobin binsz mem = inl e
    /\ (e = ZeroCapacity \/ e = InvalidDigit \/ e = OutputTooBig).
Proof.
  intros Hin Hc.
  unfold b58tobin. destruct (binsz =? 0); [eauto|]. cbv zeta.
  destruct (in_split _ _ (invalid_after_ones _ _ Hin Hc)) as [pre [post Hs]].
  rewrite Hs, (b58_accumulate_stops _ c Hc).
  destruct (b58_accumulate (zeromask binsz) pre _) as [e|outi'] eqn:E; [|eauto].
  apply b58_accumulate_failure in E. exists e. tauto.
Qed.

(** C2: when the string holds a byte outside the alphabet, high bit set
    or not, [b58tobin] returns [false], and it does so before the output
    buffer is written; the digit loop returns at that byte whatever
    follows it, unless it has returned before. *)
Theorem b58tobin_invalid_character (binsz : Z) (mem : list byte) (c : byte) :
  In c (c_string mem) ->
  in_alphabet c = false ->
  tobin_returns (b58tobin binsz mem) = false
  /\ (forall bin, b58tobin binsz mem <> inl (ResultTooLarge bin))
  /\ (forall pre post outi,
         b58_accumulate (zeromask binsz) (pre ++ c :: post) outi
         = match b58_accumulate (zeromask binsz) pre outi with
           | inl e => inl e
           | inr _ => inl InvalidDigit
           end).
Proof.
  intros Hin Hc.
  destruct (b58tobin_invalid_fails binsz mem c Hin Hc) as [e [He Hkind]].
  split; [rewrite He; reflexivity|].
  split; [|apply b58_accumulate_stops; exact Hc].
  intros bin Hbin. rewrite He in Hbin. injection Hbin as ->.
  destruct Hkind as [H|[H|H]]; discriminate H.
Qed.

Lemma b58tobin_invalid_character_witness :
  tobin_returns
    (b58tobin 8 (String.list_byte_of_string "1O2"%string)) = false.
Proof.
  apply (b58tobin_invalid_character 8 (String.list_byte_of_string "1O2"%string)
           "O"%byte).
  - right. left. reflexivity.
  - reflexivity.
Defined.

(** ** Capacity negotiation *)

(** C3: [b58enc] fails exactly when the capacity is not more than the
    length of the string, that is, too small for the string and its
    terminator; it then reports that length plus one, and a call with the
    reported capacity succeeds; with any larger capacity it succeeds as
    well, writing the string and its terminator. *)
Theorem b58enc_capacity (data : list byte) (cap : Z) :
  Z.of_nat (length data) < 2 ^ 63 ->
  let len := Z.of_nat (length (enc_string data)) in
  let written := enc_string data ++ [x00] in
  c_string written = enc_string data
  /\ (cap < len + 1 -> b58enc cap data = inl (len + 1))
  /\ (len + 1 <= cap -> b58enc cap data = inr (written, len + 1))
  /\ b58enc (len + 1) data = inr (written, len + 1).
Proof.
  intros Hn len written.
  split; [|split; [|split]].
  - apply strlen_alphabet; [apply enc_string_alphabet|].
    right. eexists. reflexivity.
  - intros Hcap. rewrite b58enc_char by exact Hn. fold len.
    destruct (cap <=? len) eqn:E; [reflexivity|].
    apply Z.leb_gt in E. lia.
  - intros Hcap. rewrite b58enc_char by exact Hn. fold len.
    destruct (cap <=? len) eqn:E; [|reflexivity].
    apply Z.leb_le in E. lia.
  - rewrite b58enc_char by exact Hn. fold len.
    destruct (len + 1 <=? len) eqn:E; [|reflexivity].
    apply Z.leb_le in E. lia.
Qed.

Lemma b58enc_capacity_witness :
  b58enc 3 [x00; x00; x01] = inl 4
  /\ b58enc 4 [x00; x00; x01]
     = inr (String.list_byte_of_string "112"%string ++ [x00], 4).
Proof.
  pose proof (b58enc_capacity [x00; x00; x01] 3 ltac:(cbn; lia))
    as (_ & Hfail & _ & Hretry).
  split.
  - apply Hfail. vm_compute. reflexivity.
  - exact Hretry.
Defined.

(** ** The reported byte count *)

(** C4 does not hold of the code: for the string ["11"] and a capacity of
    one byte the value is zero, the loop that counts the canonical byte
    count never meets a nonzero byte, so the test [zerocount > i] is never
    made, and [b58tobin] returns [true] with [*binszp = 2]; [base58_decode]
    then copies from one byte before its buffer. *)
Theorem b58tobin_count_exceeds_capacity :
  b58tobin 1 (String.list_byte_of_string "11"%string) = inr ([x00], 2)
  /\ base58_decode (String.list_byte_of_string "11"%string) 1 = (2, OutOfBounds).
Proof. split; reflexivity. Qed.

(** A successful decoding of a nonzero value: the buffer has [k] leading
    zero bytes, at least as many as the string has leading ['1'], and the
    count leaves out the [k - zerocount] bytes in excess. *)
Lemma b58tobin_success_nonzero (binsz : Z) (mem bin : list byte) (res : Z) :
  0 < binsz -> binsz + 3 < 2 ^ 64 ->
  Forall (fun c => in_alphabet c = true) (c_string mem) ->
  Z.of_nat (count_ones (c_string mem)) < 2 ^ 32 ->
  b58_value (c_string mem) <> 0 ->
  b58tobin binsz mem = inr (bin, res) ->
  exists k y tl,
    bin = repeat x00 k ++ y :: tl /\ y <> x00
    /\ Z.of_nat (length bin) = binsz
    /\ bytes_value bin = b58_value (c_string mem)
    /\ (count_ones (c_string mem) <= k)%nat
    /\ res = binsz - Z.of_nat k + Z.of_nat (count_ones (c_string mem)).
Proof.
  intros Hpos Hmax Hs Hzc Hnz Hres.
  destruct (Z.lt_ge_cases (b58_value (c_string mem)) (256 ^ binsz)) as [Hfit|Hbig].
  - destruct (b58tobin_fits binsz mem Hpos Hmax Hs Hzc Hfit)
      as [bin' (Hl & Hv & Heq)].
    rewrite Heq in Hres. cbv zeta in Hres.
    pose proof (count_zero_bytes_le bin') as Hk.
    destruct (count_zero_bytes_split bin') as [tail (Hsplit & _ & Htail)].
    destruct Htail as [->|[y [tl [-> Hy]]]].
    { rewrite app_nil_r in Hsplit. rewrite Hsplit in Hv.
      rewrite <- (app_nil_r (repeat _ _)), bytes_value_zeros in Hv.
      cbn in Hv. congruence. }
    assert (Hlt : Z.of_nat (count_zero_bytes bin') < binsz).
    { rewrite Hsplit in Hl at 1.
      rewrite length_app, repeat_length in Hl. cbn [length] in Hl. lia. }
    pose proof Hlt as Hltb. apply Z.ltb_lt in Hltb.
    rewrite Hltb in Hres. cbn [andb] in Hres.
    destruct (_ >? _) eqn:E; [discriminate|].
    injection Hres as <- <-.
    rewrite Z.gtb_ltb in E. apply Z.ltb_ge in E.
    exists (count_zero_bytes bin'), y, tl.
    repeat split; auto; try lia.
    rewrite wrap64_small by lia. reflexivity.
  - rewrite (b58tobin_too_big binsz mem Hpos Hmax Hs Hbig) in Hres.
    discriminate.
Qed.

(** Whenever the decoded value is not zero, the count is within the
    capacity: the test [zerocount > i] is made in that case. *)
Lemma b58tobin_count_nonzero (binsz : Z) (mem bin : list byte) (res : Z) :
  0 < binsz -> binsz + 3 < 2 ^ 64 ->
  Forall (fun c => in_alphabet c = true) (c_string mem) ->
  Z.of_nat (count_ones (c_string mem)) < 2 ^ 32 ->
  b58_value (c_string mem) <> 0 ->
  b58tobin binsz mem = inr (bin, res) ->
  res <= binsz.
Proof.
  intros Hpos Hmax Hs Hzc Hnz Hres.
  destruct (b58tobin_success_nonzero binsz mem bin res Hpos Hmax Hs Hzc Hnz Hres)
    as (k & y & tl & _ & _ & _ & _ & Hle & ->).
  lia.
Qed.

Lemma count_zero_bytes_repeat (n : nat) : count_zero_bytes (repeat x00 n) = n.
Proof. induction n as [|n IH]; cbn; [reflexivity|]. rewrite IH. reflexivity. Qed.

(** A successful decoding of the value zero: the buffer is all zeros, no
    test is made, and the count is [zerocount], whatever the capacity. *)
Lemma b58tobin_zero_value (binsz : Z) (mem : list byte) :
  0 < binsz -> binsz + 3 < 2 ^ 64 ->
  Forall (fun c => in_alphabet c = true) (c_string mem) ->
  Z.of_nat (count_ones (c_string mem)) < 2 ^ 32 ->
  b58_value (c_string mem) = 0 ->
  b58tobin binsz mem
  = inr (repeat x00 (Z.to_nat binsz), Z.of_nat (count_ones (c_string mem))).
Proof.
  intros Hpos Hmax Hs Hzc Hzero.
  destruct (b58tobin_fits binsz mem Hpos Hmax Hs Hzc) as [bin (Hl & Hv & Hres)].
  - rewrite Hzero. apply Z.pow_pos_nonneg; lia.
  - assert (Hbin : bin = repeat x00 (Z.to_nat binsz)).
    { apply bytes_value_inj.
      - rewrite repeat_length. lia.
      - rewrite Hv, Hzero.
        rewrite <- (app_nil_r (repeat _ _)), bytes_value_zeros. reflexivity. }
    subst bin. rewrite Hres. cbv zeta.
    rewrite count_zero_bytes_repeat, Z2Nat.id, Z.ltb_irrefl by lia.
    cbn [andb]. f_equal. f_equal.
    rewrite wrap64_small by lia. lia.
Qed.

(** ** Leading zeros *)

Lemma bytes_value_nonzero (n : nat) (b0 : byte) (rest : list byte) :
  b0 <> x00 -> bytes_value (repeat x00 n ++ b0 :: rest) <> 0.
Proof.
  intros Hb. rewrite bytes_value_zeros, bytes_value_cons.
  assert (Hnz : u8 b0 <> 0) by (rewrite u8_zero_iff; exact Hb).
  pose proof (u8_range b0). pose proof (bytes_value_range rest).
  assert (0 < 256 ^ Z.of_nat (length rest)) by (apply Z.pow_pos_nonneg; lia).
  nia.
Qed.



(** ** Overflow of the output capacity *)

(** C6: in the digit loop of [b58tobin], when the pass for a digit leaves
    a carry out of chunk 0, or leaves bits of chunk 0 set under
    [zeromask], the function returns [false]; and every string of alphabet
    characters whose value does not fit in [binsz] bytes is rejected in
    that way. *)
Theorem b58tobin_rejects_overflow (binsz : Z) (mem : list byte) :
  0 < binsz -> binsz + 3 < 2 ^ 64 ->
  (forall pre ch post outi,
      skipn (count_ones (c_string mem)) (c_string mem) = pre ++ ch :: post ->
      b58_accumulate (zeromask binsz) pre (repeat 0 (Z.to_nat (outisz binsz)))
      = inr outi ->
      snd (mul58_add outi (wrap32 (digit_of ch))) <> 0
      \/ Z.land (nth 0 (fst (mul58_add outi (wrap32 (digit_of ch)))) 0)
           (zeromask binsz) <> 0 ->
      tobin_returns (b58tobin binsz mem) = false)
  /\ (Forall (fun c => in_alphabet c = true) (c_string mem) ->
      256 ^ binsz <= b58_value (c_string mem) ->
      b58tobin binsz mem = inl OutputTooBig).
Proof.
  intros Hpos Hmax. split.
  - intros pre ch post outi Hs Hpre Hover.
    unfold b58tobin. destruct (binsz =? 0); [reflexivity|]. cbv zeta.
    rewrite Hs, b58_accumulate_app, Hpre. cbn [b58_accumulate].
    destruct (negb (Z.land (u8 ch) 128 =? 0)); [reflexivity|].
    cbv zeta. destruct (digit_of ch =? -1); [reflexivity|].
    destruct (mul58_add outi (wrap32 (digit_of ch))) as [outi' c].
    cbn [fst snd] in Hover.
    destruct (c =? 0) eqn:Ec; [|reflexivity]. cbn [negb].
    destruct (Z.land (nth 0 outi' 0) (zeromask binsz) =? 0) eqn:Em;
      [|reflexivity].
    apply Z.eqb_eq in Ec, Em. tauto.
  - intros Hs Hbig. apply b58tobin_too_big; assumption.
Qed.

Lemma b58tobin_rejects_overflow_witness :
  tobin_returns (b58tobin 1 (String.list_byte_of_string "5R"%string)) = false
  /\ b58tobin 1 (String.list_byte_of_string "5R"%string) = inl OutputTooBig.
Proof.
  destruct (b58tobin_rejects_overflow 1 (String.list_byte_of_string "5R"%string))
    as [Hstep Hvalue].
  - lia.
  - lia.
  - split.
    + apply (Hstep ["5"%byte] "R"%byte [] [4]).
      * reflexivity.
      * reflexivity.
      * right. vm_compute. lia.
    + apply Hvalue.
      * repeat constructor.
      * apply Z.leb_le. vm_compute. reflexivity.
Defined.

(** ** Leading ['1'] characters against leading zero bytes *)




(** ** Test vectors *)

Lemma b58enc_vector (cap : Z) (data : list byte) (s : list byte) :
  Z.of_nat (length data) < 2 ^ 63 ->
  enc_string data = s ->
  Z.of_nat (length s) < cap ->
  b58enc cap data = inr (s ++ [x00], Z.of_nat (length s) + 1).
Proof.
  intros Hn <- Hcap. rewrite b58enc_char by exact Hn.
  destruct (cap <=? _) eqn:E; [|reflexivity]. apply Z.leb_le in E. lia.
Qed.

(** The empty string decodes to no byte at all, whatever the capacity. *)
Lemma b58tobin_empty_string (binsz : Z) :
  0 < binsz -> binsz + 3 < 2 ^ 64 ->
  b58tobin binsz [] = inr (repeat x00 (Z.to_nat binsz), 0).
Proof.
  intros Hpos Hmax.
  apply (b58tobin_zero_value binsz [] Hpos Hmax); try reflexivity.
  constructor.
Qed.

(** C8: the empty byte sequence encodes to the empty string, [[0x00]] to
    ["1"], [[0x00, 0x00, 0x01]] to ["112"] and the bytes of
    ["Hello World!"] to ["2NEpo7TZRRrLZSi2U"], in any buffer large enough;
    the empty string decodes, with any capacity, to zero bytes. *)
Theorem b58_test_vectors (cap binsz : Z) :
  18 <= cap -> 0 < binsz -> binsz + 3 < 2 ^ 64 ->
  let str := String.list_byte_of_string in
  b58enc cap [] = inr (str ""%string ++ [x00], 1)
  /\ b58enc cap [x00] = inr (str "1"%string ++ [x00], 2)
  /\ b58enc cap [x00; x00; x01] = inr (str "112"%string ++ [x00], 4)
  /\ b58enc cap (str "Hello World!"%string)
     = inr (str "2NEpo7TZRRrLZSi2U"%string ++ [x00], 18)
  /\ (exists bin, b58tobin binsz (str ""%string) = inr (bin, 0)
                  /\ decoded binsz bin 0 = [])
  /\ base58_decode (str ""%string) binsz = (0, Copied []).
Proof.
  intros Hcap Hpos Hmax str.
  assert (Hskip : decoded binsz (repeat x00 (Z.to_nat binsz)) 0 = []).
  { unfold decoded. rewrite Z.sub_0_r. apply skipn_all2.
    rewrite repeat_length. lia. }
  repeat split.
  - apply (b58enc_vector cap [] (str ""%string)); [reflexivity|reflexivity|cbn; lia].
  - apply (b58enc_vector cap [x00] (str "1"%string));
      [reflexivity|reflexivity|cbn; lia].
  - apply (b58enc_vector cap [x00; x00; x01] (str "112"%string));
      [reflexivity|reflexivity|cbn; lia].
  - apply (b58enc_vector cap (str "Hello World!"%string)
             (str "2NEpo7TZRRrLZSi2U"%string));
      [reflexivity|vm_compute; reflexivity|cbn; lia].
  - exists (repeat x00 (Z.to_nat binsz)). split; [|exact Hskip].
    apply b58tobin_empty_string; assumption.
  - unfold base58_decode. change (str ""%string) with (@nil byte).
    rewrite b58tobin_empty_string by assumption.
    replace (0 <=? binsz) with true by (symmetry; apply Z.leb_le; lia).
    rewrite Hskip. reflexivity.
Qed.

Lemma b58_test_vectors_witness :
  b58enc 32 (String.list_byte_of_string "Hello World!"%string)
  = inr (String.list_byte_of_string "2NEpo7TZRRrLZSi2U"%string ++ [x00], 18)
  /\ base58_decode [] 16 = (0, Copied []).
Proof.
  pose proof (b58_test_vectors 32 16 ltac:(lia) ltac:(lia) ltac:(lia))
    as (_ & _ & _ & Hhello & _ & Hempty).
  split; [exact Hhello | exact Hempty].
Defined.

(** ** The lookup table *)

(** C9, as stated, fails for the byte values from 128 on: the table has no
    entry for them. *)
Lemma map_lookup_high_byte :
  in_alphabet x80 = false /\ map_lookup (u8 x80) = None.
Proof. split; reflexivity. Qed.

(** C9 (amended): the table has 128 entries; the entry of the alphabet
    character at position [i] is [i]; the entry of every byte value below
    128 that is not an alphabet character is [-1]; a byte value from 128 on
    is not an alphabet character, has no entry and has its high bit set,
    and the decoder rejects it: the digit loop returns [false] at such a
    byte, and so does [b58tobin] on every string that holds one. *)
Theorem b58digits_map_inverse :
  length b58digits_map = 128%nat
  /\ (forall i, 0 <= i < 58 -> map_lookup (u8 (digit_char i)) = Some i)
  /\ (forall c, in_alphabet c = false -> u8 c < 128 ->
                map_lookup (u8 c) = Some (-1))
  /\ (forall c, 128 <= u8 c ->
                in_alphabet c = false /\ map_lookup (u8 c) = None
                /\ Z.land (u8 c) 128 <> 0
                /\ (forall zm post outi,
                       b58_accumulate zm (c :: post) outi = inl InvalidDigit)
                /\ (forall binsz mem,
                       In c (c_string mem) ->
                       tobin_returns (b58tobin binsz mem) = false)).
Proof.
  split; [reflexivity|]. split; [|split].
  - intros i Hi.
    assert (Hall : forallb
                     (fun n => match map_lookup (u8 (digit_char (Z.of_nat n))) with
                               | Some d => d =? Z.of_nat n
                               | None => false
                               end) (seq 0 58) = true)
      by (vm_compute; reflexivity).
    rewrite forallb_forall in Hall. specialize (Hall (Z.to_nat i)).
    rewrite Z2Nat.id in Hall by lia.
    specialize (Hall ltac:(apply in_seq; lia)).
    destruct (map_lookup (u8 (digit_char i))) as [d|]; [|discriminate].
    apply Z.eqb_eq in Hall. subst d. reflexivity.
  - pose (P := fun c : byte =>
        in_alphabet c || negb (u8 c <? 128)
        || match map_lookup (u8 c) with Some d => d =? -1 | None => false end).
    assert (HP : forall c, P c = true)
      by (apply byte_forallb; vm_compute; reflexivity).
    intros c Hc Hlow. specialize (HP c). unfold P in HP.
    apply Z.ltb_lt in Hlow. rewrite Hc, Hlow in HP. cbn [orb negb] in HP.
    destruct (map_lookup (u8 c)) as [d|]; [|discriminate].
    apply Z.eqb_eq in HP. subst d. reflexivity.
  - pose (P := fun c : byte =>
        (u8 c <? 128)
        || (negb (in_alphabet c)
            && match map_lookup (u8 c) with Some _ => false | None => true end
            && negb (Z.land (u8 c) 128 =? 0))).
    assert (HP : forall c, P c = true)
      by (apply byte_forallb; vm_compute; reflexivity).
    intros c Hhigh. specialize (HP c). unfold P in HP.
    replace (u8 c <? 128) with false in HP by (symmetry; apply Z.ltb_ge; lia).
    cbn [orb] in HP. rewrite !andb_true_iff in HP.
    destruct HP as [[H1 H2] H3].
    assert (Halpha : in_alphabet c = false)
      by (destruct (in_alphabet c); [discriminate|reflexivity]).
    split; [exact Halpha|]. split; [|split; [|split]].
    + destruct (map_lookup (u8 c)); [discriminate|reflexivity].
    + apply Z.eqb_neq. destruct (Z.land (u8 c) 128 =? 0); [discriminate|reflexivity].
    + intros zm post outi. apply b58_accumulate_invalid. exact Halpha.
    + intros binsz mem Hin.
      destruct (b58tobin_invalid_fails binsz mem c Hin Halpha) as [e [He _]].
      rewrite He. reflexivity.
Qed.

Lemma b58digits_map_inverse_witness :
  map_lookup (u8 (digit_char 57)) = Some 57
  /\ map_lookup (u8 "0"%byte) = Some (-1)
  /\ map_lookup (u8 xff) = None
  /\ b58_accumulate 0 [xff; "2"%byte] [0] = inl InvalidDigit
  /\ tobin_returns (b58tobin 4 ["2"%byte; xff]) = false.
Proof.
  pose proof b58digits_map_inverse as (_ & Hinv & Hlow & Hhigh).
  assert (Hff : 128 <= u8 xff) by (apply Z.leb_le; vm_compute; reflexivity).
  destruct (Hhigh xff Hff) as (_ & Hnone & _ & Hloop & Hfun).
  split; [|split; [|split; [|split]]].
  - apply Hinv. lia.
  - apply Hlow; [reflexivity | vm_compute; reflexivity].
  - exact Hnone.
  - apply Hloop.
  - apply Hfun. right. left. reflexivity.
Defined.

(** ** The return value of [base58_decode] *)

Lemma forallb_false_witness {A : Type} (f : A -> bool) (l : list A) :
  forallb f l = false -> exists x, In x l /\ f x = false.
Proof.
  induction l as [|a l IH]; [discriminate|].
  cbn [forallb]. destruct (f a) eqn:E.
  - cbn [andb]. intros H. destruct (IH H) as [x [Hin Hx]].
    exists x. split; [right; exact Hin | exact Hx].
  - intros _. exists a. split; [left; reflexivity | exact E].
Qed.

(** A string [b58tobin] accepts holds alphabet characters only. *)
Lemma b58tobin_success_alphabet (binsz : Z) (mem : list byte) :
  tobin_returns (b58tobin binsz mem) = true ->
  Forall (fun c => in_alphabet c = true) (c_string mem).
Proof.
  intros Hok.
  destruct (forallb in_alphabet (c_string mem)) eqn:E.
  - apply Forall_forall. rewrite forallb_forall in E. exact E.
  - destruct (forallb_false_witness _ _ E) as [c [Hin Hc]].
    destruct (b58tobin_invalid_fails binsz mem c Hin Hc) as [e [He _]].
    rewrite He in Hok. discriminate.
Qed.

Lemma count_ones_le (s : list byte) : (count_ones s <= length s)%nat.
Proof.
  induction s as [|c s IH]; cbn; [lia|]. destruct (Byte.eqb c "1"%byte); lia.
Qed.

Lemma length_c_string (mem : list byte) : length (c_string mem) = strlen mem.
Proof.
  unfold c_string. induction mem as [|c mem IH]; [reflexivity|].
  cbn [strlen]. destruct (Byte.eqb c x00); [reflexivity|].
  cbn [firstn length]. rewrite IH. reflexivity.
Qed.

(** A string of alphabet characters whose value is zero and which does not
    begin with ['1'] is empty. *)
Lemma zero_value_no_ones (s : list byte) :
  Forall (fun c => in_alphabet c = true) s ->
  b58_value s = 0 -> count_ones s = O -> s = [].
Proof.
  intros Hs Hzero Hones.
  destruct s as [|c s]; [reflexivity|exfalso].
  pose proof (horner_zero_all 58 ltac:(lia) _ (in_base_digits _ Hs) Hzero) as Hall.
  cbn [map] in Hall. apply Forall_inv in Hall.
  apply Forall_inv in Hs.
  destruct (alphabet_char_facts c Hs) as (_ & _ & _ & _ & Hone).
  rewrite (Hone (eq_sym Hall)) in Hones. discriminate.
Qed.

(** C10, as stated, fails for the empty string: [b58tobin] succeeds with
    the count 0, and [base58_decode] returns 0. *)
Lemma base58_decode_zero_on_success :
  fst (base58_decode [] 1) = 0
  /\ b58tobin 1 [] = inr ([x00], 0).
Proof. split; reflexivity. Qed.

(** C10 (amended): [base58_decode] returns 0 exactly when the call of
    [b58tobin] fails or the string is empty; for the empty string and a
    [datalen] other than 0 the call succeeds with a count of 0 bytes. *)
Theorem base58_decode_returns_zero (mem : list byte) (datalen : Z) :
  0 <= datalen -> datalen + 3 < 2 ^ 64 ->
  Z.of_nat (strlen mem) < 2 ^ 32 ->
  (fst (base58_decode mem datalen) = 0
   <-> tobin_returns (b58tobin datalen mem) = false \/ c_string mem = [])
  /\ (c_string mem = [] -> 0 < datalen ->
      b58tobin datalen mem = inr (repeat x00 (Z.to_nat datalen), 0)).
Proof.
  intros Hpos Hmax Hstr.
  assert (Hzc : Z.of_nat (count_ones (c_string mem)) < 2 ^ 32).
  { pose proof (count_ones_le (c_string mem)). rewrite length_c_string in *. lia. }
  assert (Hempty : c_string mem = [] -> 0 < datalen ->
                   b58tobin datalen mem = inr (repeat x00 (Z.to_nat datalen), 0)).
  { intros He Hd.
    rewrite (b58tobin_zero_value datalen mem Hd Hmax); rewrite ?He;
      try reflexivity; try constructor. }
  split; [|exact Hempty].
  unfold base58_decode.
  destruct (b58tobin datalen mem) as [e|[d res]] eqn:Hres; cbn [fst tobin_returns].
  - split; auto.
  - assert (Hd : 0 < datalen).
    { destruct (Z.eq_dec datalen 0) as [->|]; [discriminate Hres|lia]. }
    assert (Hs : Forall (fun c => in_alphabet c = true) (c_string mem)).
    { apply (b58tobin_success_alphabet datalen). rewrite Hres. reflexivity. }
    split.
    + intros ->. right.
      destruct (Z.eq_dec (b58_value (c_string mem)) 0) as [Hzero|Hnz].
      * rewrite (b58tobin_zero_value datalen mem Hd Hmax Hs Hzc Hzero) in Hres.
        injection Hres as _ Hones.
        apply zero_value_no_ones; auto. lia.
      * destruct (b58tobin_success_nonzero datalen mem d 0 Hd Hmax Hs Hzc Hnz Hres)
          as (k & y & tl & -> & _ & Hl & _ & _ & Hcount).
        rewrite length_app, repeat_length in Hl. cbn [length] in Hl. lia.
    + intros [Hfalse|He]; [discriminate|].
      pose proof (Hempty He Hd) as Hx. injection Hx as _ ->. reflexivity.
Qed.

Lemma base58_decode_returns_zero_witness :
  fst (base58_decode [] 4) = 0
  /\ b58tobin 4 [] = inr (repeat x00 (Z.to_nat 4), 0).
Proof.
  destruct (base58_decode_returns_zero [] 4) as [Hiff Hempty].
  - lia.
  - lia.
  - cbn. lia.
  - split.
    + apply Hiff. right. reflexivity.
    + apply Hempty; [reflexivity|lia].
Defined.

(** * Further properties of the codec *)

(** ** Digit lists without leading zero *)

Lemma horner_head_bound (B : Z) (d : Z) (t : list Z) :
  1 < B -> in_base B (d :: t) -> d <> 0 ->
  B ^ Z.of_nat (length t) <= horner B 0 (d :: t).
Proof.
  intros HB Hl Hd. pose proof (horner_head_le B d t HB Hl) as Hle.
  apply Forall_inv in Hl.
  pose proof (pow_base_pos B HB (length t)). nia.
Qed.

(** Two digit lists without leading zero that denote the same number are
    equal. *)
Lemma horner_canonical_inj (B : Z) (l1 l2 : list Z) :
  1 < B -> in_base B l1 -> in_base B l2 ->
  (l1 = [] \/ exists d t, l1 = d :: t /\ d <> 0) ->
  (l2 = [] \/ exists d t, l2 = d :: t /\ d <> 0) ->
  horner B 0 l1 = horner B 0 l2 -> l1 = l2.
Proof.
  intros HB H1 H2 C1 C2 Heq.
  assert (Hlen : forall la lb,
             in_base B la -> in_base B lb ->
             (la = [] \/ exists d t, la = d :: t /\ d <> 0) ->
             horner B 0 la = horner B 0 lb ->
             (length la <= length lb)%nat).
  { intros la lb Ha Hb Ca Hv.
    destruct Ca as [->|[d [t [-> Hd]]]]; [cbn; lia|].
    pose proof (horner_head_bound B d t HB Ha Hd) as Hlow.
    pose proof (horner_range B HB lb Hb) as Hup.
    destruct (Nat.le_gt_cases (length (d :: t)) (length lb)) as [|Hgt]; [assumption|].
    cbn [length] in Hgt.
    assert (B ^ Z.of_nat (length lb) <= B ^ Z.of_nat (length t))
      by (apply Z.pow_le_mono_r; lia).
    lia. }
  apply (horner_inj B HB); auto.
  apply Nat.le_antisymm; apply Hlen; auto.
Qed.

Lemma count_zero_bytes_repeat_app (m : nat) (l : list byte) :
  count_zero_bytes (repeat x00 m ++ l) = (m + count_zero_bytes l)%nat.
Proof.
  induction m as [|m IH]; [reflexivity|]. cbn. rewrite IH. reflexivity.
Qed.

Lemma map_u8_inj (l1 l2 : list byte) : map u8 l1 = map u8 l2 -> l1 = l2.
Proof.
  revert l2. induction l1 as [|a l1 IH]; intros [|b l2] H; try discriminate; auto.
  cbn in H. injection H as Hab H.
  f_equal; [apply u8_inj; exact Hab | apply IH; exact H].
Qed.

(** A byte sequence is determined by its number of leading zero bytes and
    the number it denotes. *)
Lemma bytes_determined (b1 b2 : list byte) :
  count_zero_bytes b1 = count_zero_bytes b2 ->
  bytes_value b1 = bytes_value b2 -> b1 = b2.
Proof.
  intros Hz Hv.
  destruct (count_zero_bytes_split b1) as [t1 (S1 & _ & C1)].
  destruct (count_zero_bytes_split b2) as [t2 (S2 & _ & C2)].
  rewrite S1, S2, !bytes_value_zeros in Hv. rewrite S1, S2, Hz. f_equal.
  apply map_u8_inj, (horner_canonical_inj 256); auto using in_base_map_u8; try lia.
  - destruct C1 as [->|[b [t [-> Hb]]]]; [left; reflexivity|right].
    exists (u8 b), (map u8 t). split; [reflexivity|].
    rewrite u8_zero_iff. exact Hb.
  - destruct C2 as [->|[b [t [-> Hb]]]]; [left; reflexivity|right].
    exists (u8 b), (map u8 t). split; [reflexivity|].
    rewrite u8_zero_iff. exact Hb.
Qed.

Lemma map_digit_of_inj (s1 s2 : list byte) :
  Forall (fun c => in_alphabet c = true) s1 ->
  Forall (fun c => in_alphabet c = true) s2 ->
  map digit_of s1 = map digit_of s2 -> s1 = s2.
Proof.
  intros H1. revert s2.
  induction H1 as [|a s1 Ha H1 IH]; intros s2 H2 Heq;
    destruct H2 as [|b s2 Hb H2]; try discriminate; auto.
  cbn [map] in Heq. injection Heq as Hab Heq.
  destruct (alphabet_char_facts a Ha) as (_ & _ & Ra & _).
  destruct (alphabet_char_facts b Hb) as (_ & _ & Rb & _).
  f_equal; [rewrite <- Ra, <- Rb, Hab; reflexivity | apply IH; assumption].
Qed.

(** A string of alphabet characters is determined by its number of
    leading ['1'] and its magnitude. *)
Lemma b58_string_determined (s1 s2 : list byte) :
  Forall (fun c => in_alphabet c = true) s1 ->
  Forall (fun c => in_alphabet c = true) s2 ->
  count_ones s1 = count_ones s2 ->
  b58_value s1 = b58_value s2 -> s1 = s2.
Proof.
  intros A1 A2 Hz Hv.
  rewrite <- (b58_value_skip_ones s1), <- (b58_value_skip_ones s2) in Hv.
  destruct (count_ones_split s1) as [t1 (S1 & K1 & C1)].
  destruct (count_ones_split s2) as [t2 (S2 & K2 & C2)].
  rewrite K1, K2 in Hv.
  assert (T1 : Forall (fun c => in_alphabet c = true) t1)
    by (rewrite <- K1; apply Forall_skipn; exact A1).
  assert (T2 : Forall (fun c => in_alphabet c = true) t2)
    by (rewrite <- K2; apply Forall_skipn; exact A2).
  assert (Hcanon : forall t,
             Forall (fun c => in_alphabet c = true) t ->
             (t = [] \/ exists c r, t = c :: r /\ c <> "1"%byte) ->
             map digit_of t = []
             \/ exists d r, map digit_of t = d :: r /\ d <> 0).
  { intros t Ht [->|[c [r [-> Hc]]]]; [left; reflexivity|right].
    exists (digit_of c), (map digit_of r). split; [reflexivity|].
    intros H0. apply Hc. apply Forall_inv in Ht.
    apply (alphabet_char_facts c Ht). exact H0. }
  rewrite S1, S2, Hz. f_equal.
  apply map_digit_of_inj; auto.
  apply (horner_canonical_inj 58); auto using in_base_digits; lia.
Qed.

(** ** What a successful decoding returns *)

(** On success the buffer holds the magnitude of the string in [binsz]
    bytes, and the count leaves out the leading zero bytes of the buffer
    and adds [zerocount]. *)
Lemma b58tobin_success_facts (binsz : Z) (mem bin : list byte) (res : Z) :
  0 <= binsz -> binsz + 3 < 2 ^ 64 ->
  Z.of_nat (strlen mem) < 2 ^ 32 ->
  b58tobin binsz mem = inr (bin, res) ->
  Forall (fun c => in_alphabet c = true) (c_string mem)
  /\ Z.of_nat (length bin) = binsz
  /\ bytes_value bin = b58_value (c_string mem)
  /\ res = binsz - Z.of_nat (count_zero_bytes bin)
           + Z.of_nat (count_ones (c_string mem))
  /\ (Z.of_nat (count_zero_bytes bin) = binsz
      \/ (count_ones (c_string mem) <= count_zero_bytes bin)%nat).
Proof.
  intros Hnn Hmax Hstr Hres.
  assert (Hpos : 0 < binsz).
  { destruct (Z.eq_dec binsz 0) as [->|]; [discriminate Hres|lia]. }
  assert (Hs : Forall (fun c => in_alphabet c = true) (c_string mem)).
  { apply (b58tobin_success_alphabet binsz). rewrite Hres. reflexivity. }
  assert (Hzc : Z.of_nat (count_ones (c_string mem)) < 2 ^ 32).
  { pose proof (count_ones_le (c_string mem)). rewrite length_c_string in *. lia. }
  destruct (Z.lt_ge_cases (b58_value (c_string mem)) (256 ^ binsz)) as [Hfit|Hbig].
  - destruct (b58tobin_fits binsz mem Hpos Hmax Hs Hzc Hfit)
      as [bin' (Hl & Hv & Heq)].
    rewrite Heq in Hres. cbv zeta in Hres.
    pose proof (count_zero_bytes_le bin') as Hk.
    destruct ((_ <? _) && (_ >? _)) eqn:E; [discriminate|].
    injection Hres as <- <-.
    assert (Hor : Z.of_nat (count_zero_bytes bin') = binsz
                  \/ (count_ones (c_string mem) <= count_zero_bytes bin')%nat).
    { apply andb_false_iff in E. destruct E as [E|E].
      - apply Z.ltb_ge in E. left. lia.
      - rewrite Z.gtb_ltb in E. apply Z.ltb_ge in E. right. lia. }
    repeat split; auto.
    apply wrap64_small. lia.
  - rewrite (b58tobin_too_big binsz mem Hpos Hmax Hs Hbig) in Hres.
    discriminate.
Qed.

Lemma bytes_value_zero_repeat (bin : list byte) :
  bytes_value bin = 0 -> bin = repeat x00 (length bin).
Proof.
  intros Hv. apply bytes_value_inj.
  - rewrite repeat_length. reflexivity.
  - rewrite Hv, <- (app_nil_r (repeat _ _)), bytes_value_zeros. reflexivity.
Qed.

(** The bytes [base58_decode] copies out after a successful [b58tobin]
    with a count within the capacity: as many leading zero bytes as the
    string has leading ['1'], and the magnitude of the string. *)
Lemma decoded_facts (binsz : Z) (mem bin : list byte) (res : Z) :
  0 <= binsz -> binsz + 3 < 2 ^ 64 ->
  Z.of_nat (strlen mem) < 2 ^ 32 ->
  b58tobin binsz mem = inr (bin, res) ->
  res <= binsz ->
  Z.of_nat (length (decoded binsz bin res)) = res
  /\ count_zero_bytes (decoded binsz bin res) = count_ones (c_string mem)
  /\ bytes_value (decoded binsz bin res) = b58_value (c_string mem).
Proof.
  intros Hnn Hmax Hstr Hres Hle.
  destruct (b58tobin_success_facts binsz mem bin res Hnn Hmax Hstr Hres)
    as (_ & Hl & Hv & -> & Hor).
  pose proof (count_zero_bytes_le bin) as Hk.
  assert (Hzk : (count_ones (c_string mem) <= count_zero_bytes bin)%nat)
    by (destruct Hor; lia).
  destruct (count_zero_bytes_split bin) as [tail (Hsplit & _ & Htail)].
  unfold decoded. rewrite <- Hv.
  remember (count_zero_bytes bin) as k eqn:Ek.
  remember (count_ones (c_string mem)) as z eqn:Ez.
  replace (Z.to_nat (binsz - (binsz - Z.of_nat k + Z.of_nat z)))
    with (k - z)%nat by lia.
  clear Ek. subst bin.
  rewrite length_app, repeat_length in Hl.
  rewrite skipn_repeat_app by lia.
  replace (k - (k - z))%nat with z by lia.
  split; [|split].
  - rewrite length_app, repeat_length. lia.
  - destruct Htail as [->|[y [tl [-> Hy]]]].
    + rewrite app_nil_r. apply count_zero_bytes_repeat.
    + apply count_zero_bytes_app. exact Hy.
  - rewrite !bytes_value_zeros. reflexivity.
Qed.

(** ** The encoder: what is written, and how much *)

(** X1: the string a successful [b58enc] writes is NUL-terminated and made
    of alphabet characters only; it has as many leading ['1'] as the input
    has leading zero bytes, its base-58 magnitude is the number the input
    bytes denote, and the size reported counts the terminator. *)
Theorem b58enc_output_denotes (data : list byte) (cap : Z) (b58 : list byte) (sz : Z) :
  138 * Z.of_nat (length data) < 2 ^ 64 ->
  b58enc cap data = inr (b58, sz) ->
  b58 = c_string b58 ++ [x00]
  /\ sz = Z.of_nat (length (c_string b58)) + 1
  /\ Forall (fun c => in_alphabet c = true) (c_string b58)
  /\ count_ones (c_string b58) = count_zero_bytes data
  /\ b58_value (c_string b58) = bytes_value data.
Proof.
  intros Hrange Henc.
  rewrite b58enc_char in Henc by lia.
  destruct (cap <=? _); [discriminate|]. injection Henc as <- <-.
  rewrite (strlen_alphabet (enc_string data) [x00] (enc_string_alphabet data))
    by (right; eexists; reflexivity).
  destruct (enc_string_facts data Hrange) as (Hones & Hval & _).
  repeat split; auto using enc_string_alphabet.
Qed.

Lemma b58enc_output_denotes_witness :
  let b58 := String.list_byte_of_string "112"%string ++ [x00] in
  count_ones (c_string b58) = 2%nat /\ b58_value (c_string b58) = 1.
Proof.
  destruct (b58enc_output_denotes [x00; x00; x01] 8
              (String.list_byte_of_string "112"%string ++ [x00]) 4)
    as (_ & _ & _ & Hones & Hval).
  - cbn. lia.
  - reflexivity.
  - split; [exact Hones | exact Hval].
Defined.

Lemma enc_string_length_bound (data : list byte) :
  Z.of_nat (length (enc_string data))
  <= Z.of_nat (length data) * 138 / 100 + 1.
Proof.
  rewrite length_enc_string.
  pose proof (count_zero_bytes_le data) as Hz.
  set (n := Z.of_nat (length data)). set (z := Z.of_nat (count_zero_bytes data)).
  assert (Hsize : enc_size n z <= (n - z) * 138 / 100 + 1).
  { unfold enc_size, wrap64.
    assert (H1 : (n - z) mod 2 ^ 64 <= n - z) by (apply Z.mod_le; lia).
    pose proof (Z.mod_pos_bound (n - z) (2 ^ 64) ltac:(lia)) as H0.
    assert (H2 : ((n - z) mod 2 ^ 64 * 138) mod 2 ^ 64 <= (n - z) * 138).
    { apply Z.le_trans with ((n - z) mod 2 ^ 64 * 138); [apply Z.mod_le|]; lia. }
    apply (Z.div_le_mono _ _ 100) in H2; lia. }
  assert (Hdiv : (n - z) * 138 / 100 + z <= n * 138 / 100).
  { rewrite <- Z.div_add by lia. apply Z.div_le_mono; lia. }
  lia.
Qed.

(** X2: a buffer of [binsz * 138 / 100 + 2] bytes is always large enough
    for [b58enc]. *)
Theorem b58enc_worst_case_capacity (data : list byte) (cap : Z) :
  Z.of_nat (length data) < 2 ^ 63 ->
  Z.of_nat (length data) * 138 / 100 + 2 <= cap ->
  exists b58 sz,
    b58enc cap data = inr (b58, sz)
    /\ sz <= Z.of_nat (length data) * 138 / 100 + 2.
Proof.
  intros Hn Hcap.
  pose proof (enc_string_length_bound data) as Hlen.
  exists (enc_string data ++ [x00]), (Z.of_nat (length (enc_string data)) + 1).
  split; [|lia].
  apply b58enc_vector; auto. lia.
Qed.

Lemma b58enc_worst_case_capacity_witness :
  exists b58 sz,
    b58enc 18 (String.list_byte_of_string "Hello World!"%string) = inr (b58, sz)
    /\ sz <= 18.
Proof.
  apply (b58enc_worst_case_capacity
           (String.list_byte_of_string "Hello World!"%string) 18).
  - cbn. lia.
  - vm_compute. intros H. discriminate H.
Defined.

(** X3: [base58_encode] returns 0 exactly when [strsize] is not more than
    the length of the string; otherwise it returns that length plus one,
    the terminator being counted, so 0 is never returned on success. *)
Theorem base58_encode_result (data : list byte) (strsize : Z) :
  Z.of_nat (length data) < 2 ^ 63 ->
  let len := Z.of_nat (length (enc_string data)) in
  (strsize <= len -> base58_encode data strsize = 0)
  /\ (len < strsize -> base58_encode data strsize = len + 1)
  /\ (base58_encode data strsize = 0 <-> strsize <= len).
Proof.
  intros Hn len. unfold base58_encode. rewrite b58enc_char by exact Hn.
  fold len. destruct (strsize <=? len) eqn:E.
  - apply Z.leb_le in E. repeat split; intros; auto; lia.
  - apply Z.leb_gt in E. repeat split; intros; lia.
Qed.

Lemma base58_encode_result_witness :
  base58_encode [x00; x00; x01] 3 = 0 /\ base58_encode [x00; x00; x01] 4 = 4.
Proof.
  destruct (base58_encode_result [x00; x00; x01] 3 ltac:(cbn; lia))
    as (Hfail & _ & _).
  destruct (base58_encode_result [x00; x00; x01] 4 ltac:(cbn; lia))
    as (_ & Hok & _).
  split.
  - apply Hfail. vm_compute. intros H. discriminate H.
  - apply Hok. vm_compute. reflexivity.
Defined.

(** X4: what [b58enc] writes for two inputs is the same string only when
    the inputs are the same bytes. *)
Theorem b58enc_injective
  (b1 b2 : list byte) (cap1 cap2 : Z) (b58 : list byte) (sz1 sz2 : Z) :
  138 * Z.of_nat (length b1) < 2 ^ 64 ->
  138 * Z.of_nat (length b2) < 2 ^ 64 ->
  b58enc cap1 b1 = inr (b58, sz1) ->
  b58enc cap2 b2 = inr (b58, sz2) ->
  b1 = b2.
Proof.
  intros R1 R2 E1 E2.
  rewrite b58enc_char in E1, E2 by lia.
  destruct (cap1 <=? _); [discriminate|]. injection E1 as <- _.
  destruct (cap2 <=? _); [discriminate|]. injection E2 as E2 _.
  apply app_inv_tail in E2.
  destruct (enc_string_facts b1 R1) as (O1 & V1 & _).
  destruct (enc_string_facts b2 R2) as (O2 & V2 & _).
  apply bytes_determined; congruence.
Qed.

Lemma b58enc_injective_witness : [x00; x01] = [x00; x01].
Proof.
  apply (b58enc_injective [x00; x01] [x00; x01] 8 16
           (String.list_byte_of_string "12"%string ++ [x00]) 3 3).
  - cbn. lia.
  - cbn. lia.
  - reflexivity.
  - reflexivity.
Defined.

(** ** Decoding with a buffer sized for the worst case *)

(** X5: through the two wrappers, with a destination of at least one byte
    and at least as many bytes as were encoded: [base58_decode] of what
    [base58_encode] wrote returns the number of bytes encoded and copies
    out exactly those bytes, whatever the excess capacity. *)
Theorem base58_roundtrip (b : list byte) (strsize datalen : Z) :
  Z.of_nat (length b) < 2 ^ 32 ->
  Z.of_nat (length (enc_string b)) < strsize ->
  1 <= datalen -> Z.of_nat (length b) <= datalen -> datalen + 3 < 2 ^ 64 ->
  exists b58,
    b58enc strsize b = inr (b58, base58_encode b strsize)
    /\ base58_decode b58 datalen = (Z.of_nat (length b), Copied b).
Proof.
  intros Hlen Hcap Hd Hfit Hmax.
  exists (enc_string b ++ [x00]).
  assert (Henc : b58enc strsize b
                 = inr (enc_string b ++ [x00],
                        Z.of_nat (length (enc_string b)) + 1))
    by (apply b58enc_vector; auto; lia).
  split; [unfold base58_encode; rewrite Henc; reflexivity|].
  destruct (decode_encoded datalen b ltac:(lia) Hmax Hlen)
    as [bin (Hl & Hv & Hres)].
  { pose proof (bytes_value_range b).
    assert (256 ^ Z.of_nat (length b) <= 256 ^ datalen)
      by (apply Z.pow_le_mono_r; lia).
    lia. }
  set (pad := Z.to_nat (datalen - Z.of_nat (length b))).
  assert (Hbin : bin = repeat x00 pad ++ b).
  { apply bytes_value_inj.
    - rewrite length_app, repeat_length. unfold pad. lia.
    - rewrite bytes_value_zeros. exact Hv. }
  pose proof (count_zero_bytes_le b) as Hz.
  unfold base58_decode. rewrite Hres. cbv zeta.
  rewrite Hbin, count_zero_bytes_repeat_app.
  replace (Z.of_nat (count_zero_bytes b)
           >? Z.of_nat (pad + count_zero_bytes b)) with false
    by (symmetry; rewrite Z.gtb_ltb; apply Z.ltb_ge; lia).
  rewrite andb_false_r.
  replace (wrap64 (datalen - Z.of_nat (pad + count_zero_bytes b)
                   + Z.of_nat (count_zero_bytes b)))
    with (Z.of_nat (length b))
    by (rewrite wrap64_small; unfold pad; lia).
  replace (Z.of_nat (length b) <=? datalen) with true
    by (symmetry; apply Z.leb_le; lia).
  unfold decoded. fold pad.
  rewrite skipn_app, repeat_length, Nat.sub_diag, skipn_all2
    by (rewrite repeat_length; lia).
  reflexivity.
Qed.

Lemma base58_roundtrip_witness :
  exists b58,
    b58enc 16 [x00; xff] = inr (b58, base58_encode [x00; xff] 16)
    /\ base58_decode b58 8 = (2, Copied [x00; xff]).
Proof.
  apply (base58_roundtrip [x00; xff] 16 8).
  - cbn. lia.
  - vm_compute. reflexivity.
  - lia.
  - cbn. lia.
  - lia.
Defined.

(** X6: when the encoded bytes are not all zero, a destination shorter
    than they are is refused: [base58_decode] returns 0 and copies
    nothing. *)
Theorem base58_decode_capacity_too_small
  (n : nat) (b0 : byte) (rest : list byte) (datalen : Z) :
  b0 <> x00 ->
  Z.of_nat (length (repeat x00 n ++ b0 :: rest)) < 2 ^ 32 ->
  0 <= datalen < Z.of_nat (length (repeat x00 n ++ b0 :: rest)) ->
  base58_decode (enc_string (repeat x00 n ++ b0 :: rest) ++ [x00]) datalen
  = (0, Untouched).
Proof.
  intros Hb Hlen Hd.
  set (data := repeat x00 n ++ b0 :: rest) in *.
  unfold base58_decode.
  destruct (b58tobin datalen (enc_string data ++ [x00])) as [e|[bin res]] eqn:E;
    [reflexivity|exfalso].
  pose proof (strlen_alphabet (enc_string data) [x00]
                (enc_string_alphabet data) ltac:(right; eexists; reflexivity))
    as Hstr.
  destruct (enc_string_facts data ltac:(lia)) as (Hones & Hval & _).
  assert (Hzc : count_zero_bytes data = n)
    by (apply count_zero_bytes_app; exact Hb).
  pose proof (bytes_value_nonzero n b0 rest Hb) as Hnz. fold data in Hnz.
  assert (Hpos : 0 < datalen).
  { destruct (Z.eq_dec datalen 0) as [->|]; [discriminate E|lia]. }
  assert (Hlt : Z.of_nat n < 2 ^ 32).
  { pose proof (count_zero_bytes_le data). lia. }
  destruct (b58tobin_success_nonzero datalen (enc_string data ++ [x00]) bin res
              Hpos ltac:(lia)) as (k & y & tl & -> & Hy & Hl & Hv & Hle & _);
    rewrite ?Hstr, ?Hones, ?Hval, ?Hzc; auto using enc_string_alphabet.
  rewrite Hstr, Hones, Hzc in Hle. rewrite Hstr, Hval in Hv.
  unfold data in Hv. rewrite !bytes_value_zeros in Hv.
  assert (Heq : map u8 (y :: tl) = map u8 (b0 :: rest)).
  { apply (horner_canonical_inj 256); auto using in_base_map_u8; try lia;
      right; cbn [map]; eexists; eexists; (split; [reflexivity|]);
      rewrite u8_zero_iff; assumption. }
  apply (f_equal (@length Z)) in Heq. rewrite !length_map in Heq.
  unfold data in Hd.
  rewrite !length_app, !repeat_length in *. cbn [length] in *. lia.
Qed.

Lemma base58_decode_capacity_too_small_witness :
  base58_decode (String.list_byte_of_string "15R"%string ++ [x00]) 2
  = (0, Untouched).
Proof.
  apply (base58_decode_capacity_too_small 1 x01 [x00] 2).
  - discriminate.
  - cbn. lia.
  - cbn. lia.
Defined.

(** ** The decoder: what is accepted, and what it yields *)

(** X7: when [b58tobin] returns [true], the string holds alphabet
    characters only, the buffer holds [binsz] bytes that denote the
    magnitude of the string, and the count stored is [zerocount] plus the
    number of bytes of the buffer after its leading zero bytes. *)
Theorem b58tobin_yields_magnitude (binsz : Z) (mem bin : list byte) (res : Z) :
  0 <= binsz -> binsz + 3 < 2 ^ 64 ->
  Z.of_nat (strlen mem) < 2 ^ 32 ->
  b58tobin binsz mem = inr (bin, res) ->
  Forall (fun c => in_alphabet c = true) (c_string mem)
  /\ Z.of_nat (length bin) = binsz
  /\ bytes_value bin = b58_value (c_string mem)
  /\ res = Z.of_nat (count_ones (c_string mem))
           + Z.of_nat (length (skipn (count_zero_bytes bin) bin)).
Proof.
  intros Hnn Hmax Hstr Hres.
  destruct (b58tobin_success_facts binsz mem bin res Hnn Hmax Hstr Hres)
    as (Hs & Hl & Hv & Hcount & _).
  pose proof (count_zero_bytes_le bin).
  repeat split; auto. rewrite length_skipn. lia.
Qed.

Lemma b58tobin_yields_magnitude_witness :
  bytes_value [x00; x00; x00; x01; x00]
  = b58_value (c_string (String.list_byte_of_string "15R"%string)).
Proof.
  destruct (b58tobin_yields_magnitude 5
              (String.list_byte_of_string "15R"%string)
              [x00; x00; x00; x01; x00] 3) as (_ & _ & Hv & _).
  - lia.
  - lia.
  - cbn. lia.
  - reflexivity.
  - exact Hv.
Defined.

Lemma bytes_value_head_bound (y : byte) (tl : list byte) :
  y <> x00 -> 256 ^ Z.of_nat (length tl) <= bytes_value (y :: tl).
Proof.
  intros Hy. unfold bytes_value. cbn [map].
  rewrite <- (length_map u8 tl).
  apply horner_head_bound; [lia| |rewrite u8_zero_iff; exact Hy].
  apply (in_base_map_u8 (y :: tl)).
Qed.

(** X8: which strings of alphabet characters [b58tobin] accepts: those of
    magnitude zero, all of them, and those of nonzero magnitude whose
    leading ['1'] leave enough of the [binsz] bytes for the magnitude. *)
Theorem b58tobin_accepts (binsz : Z) (mem : list byte) :
  0 < binsz -> binsz + 3 < 2 ^ 64 ->
  Forall (fun c => in_alphabet c = true) (c_string mem) ->
  Z.of_nat (strlen mem) < 2 ^ 32 ->
  let zerocount := Z.of_nat (count_ones (c_string mem)) in
  let value := b58_value (c_string mem) in
  tobin_returns (b58tobin binsz mem) = true
  <-> value = 0 \/ (zerocount <= binsz /\ value < 256 ^ (binsz - zerocount)).
Proof.
  intros Hpos Hmax Hs Hstr zerocount value.
  assert (Hzc : zerocount < 2 ^ 32).
  { unfold zerocount. pose proof (count_ones_le (c_string mem)).
    rewrite length_c_string in *. lia. }
  destruct (Z.eq_dec value 0) as [Hzero|Hnz].
  { rewrite (b58tobin_zero_value binsz mem Hpos Hmax Hs Hzc Hzero).
    cbn [tobin_returns]. tauto. }
  split.
  - intros Hok. right.
    destruct (b58tobin binsz mem) as [e|[bin res]] eqn:E; [discriminate|].
    destruct (b58tobin_success_nonzero binsz mem bin res Hpos Hmax Hs Hzc Hnz E)
      as (k & y & tl & -> & Hy & Hl & Hv & Hle & _).
    rewrite length_app, repeat_length in Hl. cbn [length] in Hl.
    rewrite bytes_value_zeros in Hv.
    pose proof (bytes_value_range (y :: tl)) as Hr. cbn [length] in Hr.
    fold value in Hv. fold zerocount.
    split; [unfold zerocount; lia|].
    apply Z.lt_le_trans with (256 ^ Z.of_nat (S (length tl))); [lia|].
    apply Z.pow_le_mono_r; unfold zerocount; lia.
  - intros [Hzero|[Hle Hfit]]; [contradiction|].
    assert (Hfit' : value < 256 ^ binsz).
    { apply Z.lt_le_trans with (256 ^ (binsz - zerocount)); [exact Hfit|].
      apply Z.pow_le_mono_r; unfold zerocount; lia. }
    destruct (b58tobin_fits binsz mem Hpos Hmax Hs Hzc Hfit')
      as [bin (Hl & Hv & Hres)].
    rewrite Hres. cbv zeta. fold zerocount.
    destruct ((_ <? _) && (_ >? _)) eqn:E; [exfalso|reflexivity].
    apply andb_prop in E. destruct E as [Ek Ez].
    apply Z.ltb_lt in Ek. rewrite Z.gtb_ltb in Ez. apply Z.ltb_lt in Ez.
    destruct (count_zero_bytes_split bin) as [tail (Hsplit & _ & Htail)].
    remember (count_zero_bytes bin) as k eqn:Hk. clear Hk. subst bin.
    rewrite length_app, repeat_length in Hl.
    destruct Htail as [->|[y [tl [-> Hy]]]]; [cbn [length] in Hl; lia|].
    cbn [length] in Hl. rewrite bytes_value_zeros in Hv. fold value in Hv.
    pose proof (bytes_value_head_bound y tl Hy) as Hlow.
    assert (256 ^ (binsz - zerocount) <= 256 ^ Z.of_nat (length tl))
      by (apply Z.pow_le_mono_r; lia).
    lia.
Qed.

Lemma b58tobin_accepts_witness :
  tobin_returns (b58tobin 3 (String.list_byte_of_string "15R"%string)) = true.
Proof.
  apply (b58tobin_accepts 3 (String.list_byte_of_string "15R"%string)).
  - lia.
  - lia.
  - repeat constructor.
  - cbn. lia.
  - right. split; [cbn; lia | vm_compute; reflexivity].
Defined.

(** X9: when a decoding succeeds with a count within the capacity,
    encoding the bytes [base58_decode] copies out gives the string back. *)
Theorem b58_decode_encode (binsz : Z) (mem bin : list byte) (res cap : Z) :
  0 <= binsz -> 138 * binsz < 2 ^ 64 ->
  Z.of_nat (strlen mem) < 2 ^ 32 ->
  b58tobin binsz mem = inr (bin, res) ->
  res <= binsz ->
  Z.of_nat (strlen mem) < cap ->
  b58enc cap (decoded binsz bin res)
  = inr (c_string mem ++ [x00], Z.of_nat (strlen mem) + 1).
Proof.
  intros Hnn Hmax Hstr Hres Hle Hcap.
  destruct (b58tobin_success_facts binsz mem bin res Hnn ltac:(lia) Hstr Hres)
    as (Hs & _).
  destruct (decoded_facts binsz mem bin res Hnn ltac:(lia) Hstr Hres Hle)
    as (Hlen & Hzeros & Hval).
  set (d := decoded binsz bin res) in *.
  destruct (enc_string_facts d ltac:(lia)) as (Hones & Hv & _).
  assert (Heq : enc_string d = c_string mem).
  { apply b58_string_determined; auto using enc_string_alphabet; congruence. }
  rewrite <- length_c_string in *. rewrite <- Heq in *.
  apply b58enc_vector; auto. lia.
Qed.

Lemma b58_decode_encode_witness :
  b58enc 8 (decoded 5 [x00; x00; x00; x01; x00] 3)
  = inr (c_string (String.list_byte_of_string "15R"%string) ++ [x00],
         Z.of_nat (strlen (String.list_byte_of_string "15R"%string)) + 1).
Proof.
  apply (b58_decode_encode 5 (String.list_byte_of_string "15R"%string)
           [x00; x00; x00; x01; x00] 3 8).
  - lia.
  - lia.
  - cbn. lia.
  - reflexivity.
  - lia.
  - cbn. lia.
Defined.

(** X10: two strings that [b58tobin] decodes, with the same capacity, to
    the same buffer and the same count are the same string. *)
Theorem b58tobin_injective (binsz : Z) (m1 m2 bin : list byte) (res : Z) :
  0 <= binsz -> binsz + 3 < 2 ^ 64 ->
  Z.of_nat (strlen m1) < 2 ^ 32 -> Z.of_nat (strlen m2) < 2 ^ 32 ->
  b58tobin binsz m1 = inr (bin, res) ->
  b58tobin binsz m2 = inr (bin, res) ->
  c_string m1 = c_string m2.
Proof.
  intros Hnn Hmax S1 S2 R1 R2.
  destruct (b58tobin_success_facts binsz m1 bin res Hnn Hmax S1 R1)
    as (A1 & _ & V1 & C1 & _).
  destruct (b58tobin_success_facts binsz m2 bin res Hnn Hmax S2 R2)
    as (A2 & _ & V2 & C2 & _).
  apply b58_string_determined; auto; [lia | congruence].
Qed.

Lemma b58tobin_injective_witness :
  c_string (String.list_byte_of_string "15R"%string ++ [x00; "5"%byte])
  = c_string (String.list_byte_of_string "15R"%string).
Proof.
  apply (b58tobin_injective 3
           (String.list_byte_of_string "15R"%string ++ [x00; "5"%byte])
           (String.list_byte_of_string "15R"%string) [x00; x01; x00] 3).
  - lia.
  - lia.
  - cbn. lia.
  - cbn. lia.
  - reflexivity.
  - reflexivity.
Defined.

(** X11: the bytes copied out do not depend on the capacity: two
    successful decodings of a string, each with a count within its
    capacity, yield the same count and the same bytes. *)
Theorem decoded_capacity_independent
  (binsz1 binsz2 : Z) (mem bin1 bin2 : list byte) (res1 res2 : Z) :
  0 <= binsz1 -> binsz1 + 3 < 2 ^ 64 ->
  0 <= binsz2 -> binsz2 + 3 < 2 ^ 64 ->
  Z.of_nat (strlen mem) < 2 ^ 32 ->
  b58tobin binsz1 mem = inr (bin1, res1) -> res1 <= binsz1 ->
  b58tobin binsz2 mem = inr (bin2, res2) -> res2 <= binsz2 ->
  res1 = res2 /\ decoded binsz1 bin1 res1 = decoded binsz2 bin2 res2.
Proof.
  intros N1 M1 N2 M2 Hstr R1 L1 R2 L2.
  destruct (decoded_facts binsz1 mem bin1 res1 N1 M1 Hstr R1 L1)
    as (Hl1 & Hz1 & Hv1).
  destruct (decoded_facts binsz2 mem bin2 res2 N2 M2 Hstr R2 L2)
    as (Hl2 & Hz2 & Hv2).
  assert (Heq : decoded binsz1 bin1 res1 = decoded binsz2 bin2 res2)
    by (apply bytes_determined; congruence).
  split; [|exact Heq]. rewrite <- Hl1, <- Hl2, Heq. reflexivity.
Qed.

Lemma decoded_capacity_independent_witness :
  3 = 3 /\ decoded 3 [x00; x01; x00] 3 = decoded 5 [x00; x00; x00; x01; x00] 3.
Proof.
  apply (decoded_capacity_independent 3 5
           (String.list_byte_of_string "15R"%string)).
  - lia.
  - lia.
  - lia.
  - lia.
  - cbn. lia.
  - reflexivity.
  - lia.
  - reflexivity.
  - lia.
Defined.

(** ** When [base58_decode] leaves its buffer *)

Lemma zero_value_all_ones (s : list byte) :
  Forall (fun c => in_alphabet c = true) s ->
  b58_value s = 0 -> s = repeat "1"%byte (length s).
Proof.
  intros Hs Hzero.
  pose proof (horner_zero_all 58 ltac:(lia) _ (in_base_digits _ Hs) Hzero) as Hall.
  clear Hzero. induction Hs as [|c s Hc Hs IH]; [reflexivity|].
  cbn [map] in Hall. inversion Hall as [|? ? Hd Hall']; subst.
  cbn [length repeat]. rewrite <- IH by exact Hall'. f_equal.
  apply (alphabet_char_facts c Hc). symmetry. exact Hd.
Qed.

Lemma all_ones_facts (n : nat) :
  Forall (fun c => in_alphabet c = true) (repeat "1"%byte n)
  /\ count_ones (repeat "1"%byte n) = n
  /\ b58_value (repeat "1"%byte n) = 0.
Proof.
  split; [apply Forall_repeat; reflexivity|]. split.
  - rewrite <- (app_nil_r (repeat _ n)). apply count_ones_app. left. reflexivity.
  - unfold b58_value. rewrite map_repeat. change (digit_of "1"%byte) with 0.
    apply horner_repeat0.
Qed.

(** X12: [base58_decode] computes a source address before its buffer [d]
    exactly when the capacity is not 0 and the string consists of more
    ['1'] characters than the capacity, and of nothing else. *)
Theorem base58_decode_out_of_bounds (mem : list byte) (datalen : Z) :
  0 <= datalen -> datalen + 3 < 2 ^ 64 ->
  Z.of_nat (strlen mem) < 2 ^ 32 ->
  snd (base58_decode mem datalen) = OutOfBounds
  <-> 0 < datalen
      /\ c_string mem = repeat "1"%byte (strlen mem)
      /\ datalen < Z.of_nat (strlen mem).
Proof.
  intros Hnn Hmax Hstr. unfold base58_decode. split.
  - destruct (b58tobin datalen mem) as [e|[d res]] eqn:E; [discriminate|].
    cbn [snd]. destruct (res <=? datalen) eqn:Hle; [discriminate|]. intros _.
    apply Z.leb_gt in Hle.
    destruct (b58tobin_success_facts datalen mem d res Hnn Hmax Hstr E)
      as (Hs & Hl & Hv & Hcount & Hor).
    pose proof (count_zero_bytes_le d) as Hk.
    pose proof (count_ones_le (c_string mem)) as Hz.
    rewrite length_c_string in Hz.
    destruct Hor as [Hfull|Hsmall]; [|lia].
    assert (Hzero : b58_value (c_string mem) = 0).
    { rewrite <- Hv.
      destruct (count_zero_bytes_split d) as [tail (Hsplit & _ & _)].
      assert (tail = []).
      { apply (f_equal (@length byte)) in Hsplit.
        rewrite length_app, repeat_length in Hsplit.
        destruct tail; [reflexivity|cbn [length] in Hsplit; lia]. }
      subst tail. rewrite Hsplit, bytes_value_zeros. reflexivity. }
    pose proof (zero_value_all_ones _ Hs Hzero) as Hones.
    rewrite length_c_string in Hones.
    assert (Hpos : 0 < datalen).
    { destruct (Z.eq_dec datalen 0) as [->|]; [discriminate E|lia]. }
    split; [|split]; [exact Hpos|exact Hones|].
    destruct (all_ones_facts (strlen mem)) as (_ & Hc & _).
    rewrite Hones, Hc in Hcount. lia.
  - intros (Hpos & Hones & Hlt).
    destruct (all_ones_facts (strlen mem)) as (Ha & Hc & Hv).
    rewrite (b58tobin_zero_value datalen mem Hpos Hmax); rewrite ?Hones, ?Hc;
      auto; try lia.
    cbn [snd].
    replace (Z.of_nat (strlen mem) <=? datalen) with false
      by (symmetry; apply Z.leb_gt; lia).
    reflexivity.
Qed.

Lemma base58_decode_out_of_bounds_witness :
  snd (base58_decode (String.list_byte_of_string "111"%string) 2) = OutOfBounds.
Proof.
  apply (base58_decode_out_of_bounds
           (String.list_byte_of_string "111"%string) 2).
  - lia.
  - lia.
  - cbn. lia.
  - split; [lia|]. split; [reflexivity | cbn; lia].
Defined.
